(** * astrium.js: the gateway session manager and the REST dispatcher

    A shallow embedding of [src/gateway/WebSocketManager.ts] and
    [src/rest/RESTManager.ts].

    JavaScript runs one task at a time and a task only gives up control at an
    [await] or when the handler returns.  Each definition below is therefore
    one run-to-completion piece of a method: a synchronous method is one
    definition, an [async] method is cut at its [await]s.  What a piece does
    to the outside world (frames written to the socket, events emitted,
    timers armed, log lines) is recorded, in order, as a list of actions. *)

From Stdlib Require Import ZArith Lia Ascii String.
From stdpp Require Import base option list strings gmap.

Local Open Scope string_scope.
Local Open Scope list_scope.
Local Open Scope Z_scope.

(** ** The gateway: [WebSocketManager] *)

Module Gateway.

(** Modelled from the spec: the opcode table [GatewayOpcodes] of
    [src/constants/Gateway.ts], which is not among the sources; the numbers
    are those of the wire-frame section of the specification. *)
Module GatewayOpcodes.
Definition DISPATCH : Z := 0.
Definition HEARTBEAT : Z := 1.
Definition IDENTIFY : Z := 2.
Definition RESUME : Z := 6.
Definition RECONNECT : Z := 7.
Definition INVALID_SESSION : Z := 9.
Definition HELLO : Z := 10.
Definition HEARTBEAT_ACK : Z := 11.
End GatewayOpcodes.

(** The six members of [GatewayCloseCodes] that [shouldReconnect] lists.
    The table itself is not among the sources, so the numbers are a
    parameter of the model. *)
Record GatewayCloseCodes := {
  AUTHENTICATION_FAILED : Z;
  INVALID_SHARD : Z;
  SHARDING_REQUIRED : Z;
  INVALID_API_VERSION : Z;
  INVALID_INTENTS : Z;
  DISALLOWED_INTENTS : Z
}.

(** [client.options.ws], and what [identify] reads from the client. *)
Record WebSocketOptions := {
  connectionTimeout : Z;
  maxReconnectAttempts : Z;
  reconnectDelay : Z
}.

Record Client := {
  token : string;
  intents : Z;              (* the value of [calculateIntents()] *)
  ws_options : WebSocketOptions;
  close_codes : GatewayCloseCodes
}.

(** The [d] field of a frame, by the shapes the manager reads or writes.
    [DSeq None] is JSON [null]. *)
Inductive Data :=
| DSeq (seq : option Z)
| DHello (heartbeat_interval : Z)
| DReady (session_id resume_gateway_url : string)
| DIdentify (tok : string) (intent_bits : Z) (shard : Z * Z)
| DResume (tok session_id : string) (seq : Z)
| DOpaque (tag : string).

Record GatewayPayload := {
  op : Z;
  d : Data;
  s : option Z;
  t : option string
}.

Inductive ReadyState := CONNECTING | OPEN | CLOSING | CLOSED.

(** The private fields of the class.  [ws] holds the ready state of the
    socket object when there is one; [heartbeatInterval] holds the period of
    the armed interval timer. *)
Record WebSocketManager := {
  ws : option ReadyState;
  heartbeatInterval : option Z;
  lastHeartbeatAck : bool;
  sequence : option Z;
  sessionId : option string;
  resumeGatewayUrl : option string;
  reconnectAttempts : Z;
  isReconnecting : bool
}.

Definition initial : WebSocketManager :=
  {| ws := None; heartbeatInterval := None; lastHeartbeatAck := true;
     sequence := None; sessionId := None; resumeGatewayUrl := None;
     reconnectAttempts := 0; isReconnecting := false |}.

Definition set_ws v (m : WebSocketManager) :=
  {| ws := v; heartbeatInterval := heartbeatInterval m;
     lastHeartbeatAck := lastHeartbeatAck m; sequence := sequence m;
     sessionId := sessionId m; resumeGatewayUrl := resumeGatewayUrl m;
     reconnectAttempts := reconnectAttempts m;
     isReconnecting := isReconnecting m |}.
Definition set_heartbeatInterval v (m : WebSocketManager) :=
  {| ws := ws m; heartbeatInterval := v;
     lastHeartbeatAck := lastHeartbeatAck m; sequence := sequence m;
     sessionId := sessionId m; resumeGatewayUrl := resumeGatewayUrl m;
     reconnectAttempts := reconnectAttempts m;
     isReconnecting := isReconnecting m |}.
Definition set_lastHeartbeatAck v (m : WebSocketManager) :=
  {| ws := ws m; heartbeatInterval := heartbeatInterval m;
     lastHeartbeatAck := v; sequence := sequence m;
     sessionId := sessionId m; resumeGatewayUrl := resumeGatewayUrl m;
     reconnectAttempts := reconnectAttempts m;
     isReconnecting := isReconnecting m |}.
Definition set_sequence v (m : WebSocketManager) :=
  {| ws := ws m; heartbeatInterval := heartbeatInterval m;
     lastHeartbeatAck := lastHeartbeatAck m; sequence := v;
     sessionId := sessionId m; resumeGatewayUrl := resumeGatewayUrl m;
     reconnectAttempts := reconnectAttempts m;
     isReconnecting := isReconnecting m |}.
Definition set_sessionId v (m : WebSocketManager) :=
  {| ws := ws m; heartbeatInterval := heartbeatInterval m;
     lastHeartbeatAck := lastHeartbeatAck m; sequence := sequence m;
     sessionId := v; resumeGatewayUrl := resumeGatewayUrl m;
     reconnectAttempts := reconnectAttempts m;
     isReconnecting := isReconnecting m |}.
Definition set_resumeGatewayUrl v (m : WebSocketManager) :=
  {| ws := ws m; heartbeatInterval := heartbeatInterval m;
     lastHeartbeatAck := lastHeartbeatAck m; sequence := sequence m;
     sessionId := sessionId m; resumeGatewayUrl := v;
     reconnectAttempts := reconnectAttempts m;
     isReconnecting := isReconnecting m |}.
Definition set_reconnectAttempts v (m : WebSocketManager) :=
  {| ws := ws m; heartbeatInterval := heartbeatInterval m;
     lastHeartbeatAck := lastHeartbeatAck m; sequence := sequence m;
     sessionId := sessionId m; resumeGatewayUrl := resumeGatewayUrl m;
     reconnectAttempts := v;
     isReconnecting := isReconnecting m |}.
Definition set_isReconnecting v (m : WebSocketManager) :=
  {| ws := ws m; heartbeatInterval := heartbeatInterval m;
     lastHeartbeatAck := lastHeartbeatAck m; sequence := sequence m;
     sessionId := sessionId m; resumeGatewayUrl := resumeGatewayUrl m;
     reconnectAttempts := reconnectAttempts m;
     isReconnecting := v |}.

(** *** What the manager does to the outside *)

Inductive WsEvent :=
| EvReady (data : Data)
| EvResumed
| EvDisconnect (code : Z) (reason : string)
| EvReconnecting
| EvError (msg : string)
| EvRaw (p : GatewayPayload).

Inductive LogLevel := DEBUG | INFO | WARN | ERROR.

(** The callbacks the manager hands to [setTimeout]. *)
Inductive Timer :=
| TIdentify            (* [() => this.identify()], after an invalid session *)
| TReconnectDelay      (* the wait of [reconnect] before [connect] *)
| TConnectTimeout.     (* the timeout of [connect] *)

Inductive Action :=
| Log (lvl : LogLevel) (msg : string)
| Emit (e : WsEvent)                       (* [this.emit] *)
| ClientEmit (name : string) (data : Data) (* [this.client.emit] *)
| WsSend (p : GatewayPayload)              (* [this.ws.send] *)
| WsClose (code : option Z)                (* [this.ws.close] *)
| WsRemoveAllListeners
| NewWebSocket (url : string)
| SetInterval (ms : Z)
| ClearInterval
| SetTimeout (ms : Z) (k : Timer).

(** *** The monad: state, an action log, and exceptions

    A thrown exception keeps the state and the actions of what ran before
    it, as in the source. *)

Inductive Outcome (A : Type) :=
| Returned (a : A)
| Threw (msg : string).
Arguments Returned {A} a.
Arguments Threw {A} msg.

Definition M (A : Type) : Type :=
  WebSocketManager -> Outcome A * WebSocketManager * list Action.

Definition ret {A} (a : A) : M A := fun m => (Returned a, m, []).
Definition bind {A B} (c : M A) (k : A -> M B) : M B := fun m =>
  match c m with
  | (Returned a, m1, l1) =>
      match k a m1 with (o, m2, l2) => (o, m2, l1 ++ l2) end
  | (Threw e, m1, l1) => (Threw e, m1, l1)
  end.
Definition throw {A} (msg : string) : M A := fun m => (Threw msg, m, []).
Definition try_catch {A} (c : M A) (h : string -> M A) : M A := fun m =>
  match c m with
  | (Returned a, m1, l1) => (Returned a, m1, l1)
  | (Threw e, m1, l1) =>
      match h e m1 with (o, m2, l2) => (o, m2, l1 ++ l2) end
  end.
Definition get : M WebSocketManager := fun m => (Returned m, m, []).
Definition modify (f : WebSocketManager -> WebSocketManager) : M unit :=
  fun m => (Returned tt, f m, []).
Definition tell (a : Action) : M unit := fun m => (Returned tt, m, [a]).
Definition when (b : bool) (c : M unit) : M unit := if b then c else ret tt.

Declare Scope gw_scope.
Delimit Scope gw_scope with gw.
Notation "x <- c ;; k" := (bind c (fun x => k))
  (at level 20, c at level 99, k at level 200, only parsing) : gw_scope.
Notation "c ;; k" := (bind c (fun _ => k))
  (at level 100, k at level 200, right associativity) : gw_scope.
Local Open Scope gw_scope.

Definition state_of {A} (r : Outcome A * WebSocketManager * list Action) :=
  snd (fst r).
Definition actions_of {A} (r : Outcome A * WebSocketManager * list Action) :=
  snd r.
Definition outcome_of {A} (r : Outcome A * WebSocketManager * list Action) :=
  fst (fst r).

(** JavaScript truthiness of a [string | null]. *)
Definition truthy (o : option string) : bool :=
  match o with
  | Some str => negb (String.eqb str "")
  | None => false
  end.

(** [String.prototype.toLowerCase], on ASCII. *)
Definition lower_ascii (c : Ascii.ascii) : Ascii.ascii :=
  let n := Ascii.nat_of_ascii c in
  if ((65 <=? n) && (n <=? 90))%nat then Ascii.ascii_of_nat (n + 32) else c.
Fixpoint toLowerCase (str : string) : string :=
  match str with
  | EmptyString => EmptyString
  | String c rest => String (lower_ascii c) (toLowerCase rest)
  end.

Section WithClient.

Variable client : Client.

(** [send(payload)] *)
Definition send (payload : GatewayPayload) : M unit :=
  m <- get ;;
  match ws m with
  | Some OPEN =>
      tell (Log DEBUG "Sending payload:") ;;
      tell (WsSend payload)
  | _ => tell (Log WARN "Cannot send payload: WebSocket not connected")
  end.

(** [sendHeartbeat()] *)
Definition sendHeartbeat : M unit :=
  modify (set_lastHeartbeatAck false) ;;
  m <- get ;;
  send {| op := GatewayOpcodes.HEARTBEAT; d := DSeq (sequence m);
          s := None; t := None |} ;;
  tell (Log DEBUG "Sent heartbeat").

(** [identify()] *)
Definition identify : M unit :=
  send {| op := GatewayOpcodes.IDENTIFY;
          d := DIdentify (token client) (intents client) (0, 1);
          s := None; t := None |} ;;
  tell (Log DEBUG "Sent IDENTIFY").

(** [resume()].  The two non-null assertions of the source are erased by
    the compiler: a null session id or sequence is sent as it is. *)
Definition resume : M unit :=
  m <- get ;;
  match sessionId m, sequence m with
  | Some sid, Some n =>
      send {| op := GatewayOpcodes.RESUME; d := DResume (token client) sid n;
              s := None; t := None |} ;;
      tell (Log DEBUG "Sent RESUME")
  | _, _ =>
      send {| op := GatewayOpcodes.RESUME; d := DOpaque "resume";
              s := None; t := None |} ;;
      tell (Log DEBUG "Sent RESUME")
  end.

(** [reconnect()], up to its first [await]: the guard, the counter, the
    notification, closing the socket, and arming the delay. *)
Definition reconnect : M unit :=
  m <- get ;;
  if isReconnecting m then ret tt
  else
    modify (set_isReconnecting true) ;;
    modify (fun m => set_reconnectAttempts (reconnectAttempts m + 1) m) ;;
    tell (Log INFO "Reconnecting...") ;;
    tell (Emit EvReconnecting) ;;
    m <- get ;;
    when (bool_decide (is_Some (ws m)))
      (tell WsRemoveAllListeners ;;
       tell (WsClose None) ;;
       modify (set_ws None)) ;;
    tell (SetTimeout (reconnectDelay (ws_options client)) TReconnectDelay).

(** [connect(gatewayUrl?)], up to the promise it returns.  It returns
    [false] when it returned early because the socket is already open, and
    [true] when a socket was created and its opening is awaited. *)
Definition default_gateway : string :=
  "wss://gateway.discord.gg/?v=10&encoding=json".

Definition connect (gatewayUrl : option string) : M bool :=
  m <- get ;;
  match ws m with
  | Some OPEN =>
      tell (Log WARN "WebSocket is already connected") ;;
      ret false
  | _ =>
      let url :=
        if truthy gatewayUrl then default default_gateway gatewayUrl
        else if truthy (resumeGatewayUrl m)
             then default default_gateway (resumeGatewayUrl m)
             else default_gateway in
      tell (Log DEBUG "Connecting to Gateway") ;;
      tell (NewWebSocket url) ;;
      modify (set_ws (Some CONNECTING)) ;;
      tell (SetTimeout (connectionTimeout (ws_options client)) TConnectTimeout) ;;
      ret true
  end.

(** The socket's [open] event inside [connect]. *)
Definition connect_opened : M unit :=
  modify (set_ws (Some OPEN)) ;;
  tell (Log DEBUG "WebSocket connection established").

(** The [catch] of [reconnect], run when the promise of [connect] is
    rejected (socket error or timeout). *)
Definition reconnect_failed : M unit :=
  tell (Log ERROR "Reconnection failed:") ;;
  m <- get ;;
  if reconnectAttempts m <? maxReconnectAttempts (ws_options client)
  then reconnect
  else
    tell (Log ERROR "Max reconnection attempts reached") ;;
    tell (Emit (EvError "Max reconnection attempts reached")).

(** [disconnect(code, reason)] *)
Definition disconnect (code : Z) : M unit :=
  m <- get ;;
  when (bool_decide (is_Some (heartbeatInterval m)))
    (tell ClearInterval ;; modify (set_heartbeatInterval None)) ;;
  when (bool_decide (is_Some (ws m)))
    (tell (WsClose (Some code)) ;; modify (set_ws None)) ;;
  modify (set_sequence None) ;;
  modify (set_sessionId None) ;;
  modify (set_resumeGatewayUrl None) ;;
  modify (set_reconnectAttempts 0) ;;
  modify (set_isReconnecting false).

(** [startHeartbeat(interval)] *)
Definition startHeartbeat (interval : Z) : M unit :=
  m <- get ;;
  when (bool_decide (is_Some (heartbeatInterval m))) (tell ClearInterval) ;;
  tell (SetInterval interval) ;;
  modify (set_heartbeatInterval (Some interval)) ;;
  sendHeartbeat.

(** The callback [startHeartbeat] gives to [setInterval]. *)
Definition heartbeat_tick : M unit :=
  m <- get ;;
  if negb (lastHeartbeatAck m)
  then
    tell (Log WARN "Heartbeat not acknowledged, reconnecting") ;;
    reconnect
  else sendHeartbeat.

(** [handleHello(data)] *)
Definition handleHello (data : Data) : M unit :=
  match data with
  | DHello heartbeat_interval =>
      tell (Log DEBUG "Received HELLO") ;;
      startHeartbeat heartbeat_interval ;;
      m <- get ;;
      if truthy (sessionId m) && bool_decide (is_Some (sequence m))
      then resume
      else identify
  | _ => throw "TypeError: heartbeat_interval"
  end.

(** [handleReady(data)] *)
Definition handleReady (data : Data) : M unit :=
  match data with
  | DReady session_id resume_gateway_url =>
      modify (set_sessionId (Some session_id)) ;;
      modify (set_resumeGatewayUrl (Some resume_gateway_url)) ;;
      modify (set_isReconnecting false) ;;
      modify (set_reconnectAttempts 0) ;;
      tell (Log INFO "Shard ready") ;;
      tell (Emit (EvReady data))
  | _ => throw "TypeError: session_id"
  end.

(** [handleDispatch(payload)] *)
Definition handleDispatch (payload : GatewayPayload) : M unit :=
  match t payload with
  | Some name =>
      if String.eqb name "READY" then handleReady (d payload)
      else if String.eqb name "RESUMED" then
        tell (Log INFO "Session resumed") ;;
        modify (set_isReconnecting false) ;;
        modify (set_reconnectAttempts 0) ;;
        tell (Emit EvResumed)
      else tell (ClientEmit (toLowerCase name) (d payload))
  | None => throw "TypeError: toLowerCase"
  end.

(** [handlePayload(payload)] *)
Definition handlePayload (payload : GatewayPayload) : M unit :=
  tell (Emit (EvRaw payload)) ;;
  match s payload with
  | Some n => modify (set_sequence (Some n))
  | None => ret tt
  end ;;
  if op payload =? GatewayOpcodes.DISPATCH then handleDispatch payload
  else if op payload =? GatewayOpcodes.HEARTBEAT then sendHeartbeat
  else if op payload =? GatewayOpcodes.RECONNECT then
    tell (Log INFO "Gateway requested reconnect") ;;
    reconnect
  else if op payload =? GatewayOpcodes.INVALID_SESSION then
    tell (Log WARN "Invalid session, identifying again") ;;
    modify (set_sessionId None) ;;
    modify (set_sequence None) ;;
    tell (SetTimeout 5000 TIdentify)
  else if op payload =? GatewayOpcodes.HELLO then handleHello (d payload)
  else if op payload =? GatewayOpcodes.HEARTBEAT_ACK then
    modify (set_lastHeartbeatAck true) ;;
    tell (Log DEBUG "Received heartbeat ACK")
  else tell (Log DEBUG "Unknown opcode").

(** [shouldReconnect(code)] *)
Definition nonRecoverableCodes : list Z :=
  let c := close_codes client in
  [ AUTHENTICATION_FAILED c; INVALID_SHARD c; SHARDING_REQUIRED c;
    INVALID_API_VERSION c; INVALID_INTENTS c; DISALLOWED_INTENTS c ].

Definition shouldReconnect (code : Z) (m : WebSocketManager) : bool :=
  negb (bool_decide (code ∈ nonRecoverableCodes))
  && (reconnectAttempts m <? maxReconnectAttempts (ws_options client)).

(** [handleClose(code, reason)] *)
Definition handleClose (code : Z) (reason : string) : M unit :=
  m <- get ;;
  when (bool_decide (is_Some (heartbeatInterval m)))
    (tell ClearInterval ;; modify (set_heartbeatInterval None)) ;;
  tell (Emit (EvDisconnect code reason)) ;;
  m <- get ;;
  if shouldReconnect code m then reconnect
  else tell (Log ERROR "WebSocket closed with non-recoverable code").

(** *** The handlers [setupEventHandlers] installs, and the event loop *)

(** The [message] handler; the frame is already parsed. *)
Definition on_message (payload : GatewayPayload) : M unit :=
  try_catch (handlePayload payload)
    (fun _ => tell (Log ERROR "Failed to parse Gateway payload:")).

(** The [close] handler.  The socket that reports it is closed. *)
Definition on_close (code : Z) (reason : string) : M unit :=
  modify (fun m => match ws m with
                   | Some _ => set_ws (Some CLOSED) m
                   | None => m
                   end) ;;
  tell (Log DEBUG "WebSocket closed") ;;
  handleClose code reason.

(** The [error] handler. *)
Definition on_error (msg : string) : M unit :=
  tell (Log ERROR "WebSocket error:") ;;
  tell (Emit (EvError msg)).

(** What the event loop can run next. *)
Inductive Input :=
| InMessage (payload : GatewayPayload)
| InClose (code : Z) (reason : string)
| InError (msg : string)
| InTick                      (* the heartbeat interval fires *)
| InIdentifyTimer             (* the 5000 ms timer of an invalid session *)
| InReconnectDelay            (* the delay of [reconnect] is over *)
| InConnectOpened             (* the socket of [connect] opened *)
| InReconnectFailed           (* the [connect] of [reconnect] was rejected *)
| InSend (payload : GatewayPayload)    (* a caller's [send] *)
| InConnect (gatewayUrl : option string)
| InDisconnect (code : Z).

Definition step (i : Input) : M unit :=
  match i with
  | InMessage p => on_message p
  | InClose code reason => on_close code reason
  | InError msg => on_error msg
  | InTick => heartbeat_tick
  | InIdentifyTimer => identify
  | InReconnectDelay => _ <- connect None ;; ret tt
  | InConnectOpened => connect_opened
  | InReconnectFailed => reconnect_failed
  | InSend p => send p
  | InConnect url => _ <- connect url ;; ret tt
  | InDisconnect code => disconnect code
  end.

(** Running a list of inputs: the final state and everything done. *)
Fixpoint run (inputs : list Input) (m : WebSocketManager)
  : WebSocketManager * list Action :=
  match inputs with
  | [] => (m, [])
  | i :: rest =>
      let r := step i m in
      let r' := run rest (state_of r) in
      (fst r', actions_of r ++ snd r')
  end.

End WithClient.

(** *** What the claims speak about *)






Definition count (f : Action -> bool) (l : list Action) : nat :=
  length (List.filter f l).

Definition is_error_event (a : Action) : bool :=
  match a with Emit (EvError _) => true | _ => false end.
Definition is_disconnect_event (a : Action) : bool :=
  match a with Emit (EvDisconnect _ _) => true | _ => false end.
Definition is_write (a : Action) : bool :=
  match a with WsSend _ => true | _ => false end.
(** The marks of a reconnect: the notification, the delay before the new
    connection, the new socket. *)
Definition is_reconnect (a : Action) : bool :=
  match a with
  | Emit EvReconnecting | SetTimeout _ TReconnectDelay | NewWebSocket _ => true
  | _ => false
  end.

Definition heartbeat (seq : option Z) : GatewayPayload :=
  {| op := GatewayOpcodes.HEARTBEAT; d := DSeq seq; s := None; t := None |}.
Definition hello (interval : Z) : GatewayPayload :=
  {| op := GatewayOpcodes.HELLO; d := DHello interval; s := None; t := None |}.
Definition heartbeat_ack : GatewayPayload :=
  {| op := GatewayOpcodes.HEARTBEAT_ACK; d := DSeq None; s := None;
     t := None |}.
Definition dispatch (seq : Z) (name : string) (data : Data)
    : GatewayPayload :=
  {| op := GatewayOpcodes.DISPATCH; d := data; s := Some seq;
     t := Some name |}.

(** A client to run examples with: the defaults of [AstriumClient] for
    [options.ws], and the close codes of the Discord gateway standing in for
    the table that is not among the sources. *)
Definition example_client : Client :=
  {| token := "token"; intents := 513;
     ws_options := {| connectionTimeout := 30000; maxReconnectAttempts := 5;
                      reconnectDelay := 5000 |};
     close_codes := {| AUTHENTICATION_FAILED := 4004; INVALID_SHARD := 4010;
                       SHARDING_REQUIRED := 4011; INVALID_API_VERSION := 4012;
                       INVALID_INTENTS := 4013; DISALLOWED_INTENTS := 4014 |}
  |}.

(** The claim about fatal close codes as the specification words it:
    exactly one error notification, and no reconnect. *)
Definition spec_fatal_close (client : Client) (m : WebSocketManager)
    (code : Z) (reason : string) : Prop :=
  let acts := actions_of (on_close client code reason m) in
  count is_error_event acts = 1%nat /\ count is_reconnect acts = 0%nat.


(** *** An invariant of the reconnect bookkeeping *)

(** The counter of [reconnect] and its flag move together: the counter is
    1 while a reconnect is under way and 0 otherwise. *)
Definition attempts_follow_flag (m : WebSocketManager) : Prop :=
  reconnectAttempts m = if isReconnecting m then 1 else 0.

(** A computation keeps the invariant when its final state has it whenever
    its first state has. *)
Definition preserves {A} (c : M A) : Prop :=
  forall m, attempts_follow_flag m -> attempts_follow_flag (state_of (c m)).


(** A first connection up to [READY], with the first heartbeat
    acknowledged. *)
Definition ready_session : list Input :=
  [ InConnect None; InConnectOpened;
    InMessage (hello 41250);
    InMessage (dispatch 1 "READY" (DReady "session" "wss://resume"));
    InMessage heartbeat_ack ].


(** The ready session loses its connection, reconnects, and gets a [hello]
    on the new socket, which the service then leaves unanswered. *)
Definition silent_after_reconnect : list Input :=
  ready_session ++
  [ InClose 1006 ""; InReconnectDelay; InConnectOpened;
    InMessage (hello 41250) ].

(** The ready session loses its connection and the delay of [reconnect] passes:
    [connect] has created the new socket and waits for it to open. *)
Definition reconnect_pending : list Input :=
  ready_session ++ [ InClose 1006 ""; InReconnectDelay ].

(** The new socket then fails: its [error] and [close] events, and the
    rejection of the promise that [reconnect] awaits. *)
Definition connect_refused : list Input :=
  [ InError "connect ECONNREFUSED"; InClose 1006 ""; InReconnectFailed ].

(** *** Further members of the class, and frames to speak about them *)

(** [get isConnected()] *)
Definition isConnected (m : WebSocketManager) : bool :=
  match ws m with
  | Some OPEN => true
  | _ => false
  end.

(** The frames [identify()] and [resume()] write. *)
Definition identify_frame (client : Client) : GatewayPayload :=
  {| op := GatewayOpcodes.IDENTIFY;
     d := DIdentify (token client) (intents client) (0, 1);
     s := None; t := None |}.
Definition resume_frame (client : Client) (sid : string) (seq : Z)
    : GatewayPayload :=
  {| op := GatewayOpcodes.RESUME; d := DResume (token client) sid seq;
     s := None; t := None |}.

(** The frame the handshake goes on with after [hello]. *)
Definition handshake_frame (client : Client) (m : WebSocketManager)
    : GatewayPayload :=
  match sessionId m, sequence m with
  | Some sid, Some seq =>
      if String.eqb sid "" then identify_frame client
      else resume_frame client sid seq
  | _, _ => identify_frame client
  end.

Definition is_emit (a : Action) : bool :=
  match a with Emit (EvRaw _) => false | Emit _ => true | _ => false end.
Definition is_new_socket (a : Action) : bool :=
  match a with NewWebSocket _ => true | _ => false end.
Definition is_timeout (a : Action) : bool :=
  match a with SetTimeout _ _ => true | _ => false end.

(** The heartbeat timers armed and not cleared: [setInterval]s less
    [clearInterval]s. *)
Definition timer_change (a : Action) : Z :=
  match a with
  | SetInterval _ => 1
  | ClearInterval => -1
  | _ => 0
  end.
Fixpoint timers (l : list Action) : Z :=
  match l with
  | [] => 0
  | a :: rest => timer_change a + timers rest
  end.
Definition armed (m : WebSocketManager) : Z :=
  match heartbeatInterval m with Some _ => 1 | None => 0 end.

(** A computation accounts for the heartbeat timer, from a given state,
    when the field says afterwards what it said before, plus what was
    armed, less what was cleared. *)
Definition timer_at {A} (c : M A) (m : WebSocketManager) : Prop :=
  armed (state_of (c m)) = armed m + timers (actions_of (c m)).

(** A computation is quiet, from a given state, when, started without an
    open socket, it ends without one and has written nothing. *)
Definition quiet_at {A} (c : M A) (m : WebSocketManager) : Prop :=
  ws m <> Some OPEN ->
  ws (state_of (c m)) <> Some OPEN
  /\ count is_write (actions_of (c m)) = 0%nat.

(** The inputs whose handler calls [reconnect()]. *)
Definition asks_reconnect (i : Input) : Prop :=
  match i with
  | InClose _ _ | InTick | InReconnectFailed => True
  | InMessage p => op p = GatewayOpcodes.RECONNECT
  | _ => False
  end.

(** A frame the handlers cannot read: a dispatch without an event name, or
    a [READY] or a [hello] whose data is null. *)
Definition unreadable (p : GatewayPayload) : Prop :=
  (op p = GatewayOpcodes.DISPATCH /\ t p = None)
  \/ (op p = GatewayOpcodes.DISPATCH /\ t p = Some "READY"
      /\ d p = DSeq None)
  \/ (op p = GatewayOpcodes.HELLO /\ d p = DSeq None).

(** A dispatch that ends the handshake: [READY] with its data, or
    [RESUMED]. *)
Definition ends_handshake (p : GatewayPayload) : Prop :=
  op p = GatewayOpcodes.DISPATCH
  /\ ((t p = Some "READY" /\ exists sid url, d p = DReady sid url)
      \/ t p = Some "RESUMED").

Definition invalid_session : GatewayPayload :=
  {| op := GatewayOpcodes.INVALID_SESSION; d := DOpaque "false"; s := None;
     t := None |}.

(** The session was ready with its heartbeat acknowledged, then the
    service invalidates it. *)
Definition invalidated_session : list Input :=
  ready_session ++ [ InMessage invalid_session ].

(** *** [calculateIntents]

    JavaScript's [|] works on the 32-bit two's complement values of its
    operands.  The table [GatewayIntentBits] is not among the sources and
    is a parameter: the bit of an intent name, [None] where the table has
    no such member. *)
Definition ToInt32 (x : Z) : Z :=
  let u := x mod 2 ^ 32 in
  if u <? 2 ^ 31 then u else u - 2 ^ 32.

Definition bitor (a b : Z) : Z := Z.lor (ToInt32 a) (ToInt32 b).

(** The signed 32-bit numbers. *)
Definition int32 (x : Z) : Prop := - 2 ^ 31 <= x < 2 ^ 31.

Section Intents.

Variable GatewayIntentBits : string -> option Z.

(** [WebSocketManager.calculateIntents()]: [bit ? bits | bit : bits], so a
    missing member and a member that is 0 both leave [bits] alone. *)
Definition calculateIntents (names : list string) : Z :=
  fold_left
    (fun bits intent =>
       match GatewayIntentBits intent with
       | Some bit => if bit =? 0 then bits else bitor bits bit
       | None => bits
       end)
    names 0.

(** [AstriumClient.calculateIntents(intents)]: only a missing member is
    skipped (with a warning, which is left out here). *)
Definition client_calculateIntents (names : list string) : Z :=
  fold_left
    (fun bits intent =>
       match GatewayIntentBits intent with
       | Some bit => bitor bits bit
       | None => bits
       end)
    names 0.

(** The bits of the names the table knows, as 32-bit values. *)
Definition known_bits (names : list string) : list Z :=
  omap (fun intent => ToInt32 <$> GatewayIntentBits intent) names.

End Intents.

(** A table to run examples with: three intents of the Discord gateway. *)
Definition example_bits (intent : string) : option Z :=
  if String.eqb intent "Guilds" then Some 1
  else if String.eqb intent "GuildMessages" then Some 512
  else if String.eqb intent "MessageContent" then Some 32768
  else None.

End Gateway.

(** ** The REST dispatcher: [RESTManager] *)

Module REST.

(** [client.options.rest] *)
Record RESTOptions := {
  timeout : Z;
  rateLimitRetryLimit : Z
}.

Record RateLimitData := {
  limit : Z;
  remaining : Z;
  reset : Z;
  resetAfter : Z;
  bucket : option string;
  global : bool
}.

(** A [QueuedRequest].  [id] stands for its [resolve]/[reject] pair: the
    promise that [request()] returned to the caller. *)
Record QueuedRequest := {
  id : nat;
  endpoint : string;
  method : string;
  retries : Z
}.

Definition retry (r : QueuedRequest) : QueuedRequest :=
  {| id := id r; endpoint := endpoint r; method := method r;
     retries := retries r + 1 |}.

(** The private fields of the class. *)
Record RESTManager := {
  globalReset : Z;
  globalRemaining : Z;
  buckets : gmap string RateLimitData;
  queues : gmap string (list QueuedRequest);
  processing : gset string
}.

Definition initial : RESTManager :=
  {| globalReset := 0; globalRemaining := 1; buckets := ∅; queues := ∅;
     processing := ∅ |}.

Definition set_global (rem rst : Z) (m : RESTManager) :=
  {| globalReset := rst; globalRemaining := rem; buckets := buckets m;
     queues := queues m; processing := processing m |}.
Definition set_buckets v (m : RESTManager) :=
  {| globalReset := globalReset m; globalRemaining := globalRemaining m;
     buckets := v; queues := queues m; processing := processing m |}.
Definition set_queues v (m : RESTManager) :=
  {| globalReset := globalReset m; globalRemaining := globalRemaining m;
     buckets := buckets m; queues := v; processing := processing m |}.
Definition set_processing v (m : RESTManager) :=
  {| globalReset := globalReset m; globalRemaining := globalRemaining m;
     buckets := buckets m; queues := queues m; processing := v |}.

(** What [fetch] gives back.  A header is the integer [Number.parseInt]
    reads from it, [None] when the header is absent; [retry_after] is the
    field of the JSON error body, a whole number of milliseconds. *)
Record Headers := {
  x_ratelimit_limit : option Z;
  x_ratelimit_remaining : option Z;
  x_ratelimit_reset : option Z;
  x_ratelimit_reset_after : option Z;
  x_ratelimit_bucket : option string;
  x_ratelimit_global : bool          (* the header is the string "true" *)
}.

Inductive FetchResult :=
| Response (status : Z) (headers : Headers) (retry_after : option Z)
| NetworkError.

(** [response.ok] *)
Definition ok (status : Z) : bool := (200 <=? status) && (status <=? 299).

(** [endpoint.split("?")[0]] *)
Fixpoint before_query (endpoint : string) : string :=
  match endpoint with
  | EmptyString => EmptyString
  | String c rest =>
      if Ascii.eqb c "?"%char then EmptyString
      else String c (before_query rest)
  end.

(** [getBucketId(endpoint, method)] *)
Definition getBucketId (endpoint method : string) : string :=
  String.append method (String.append ":" (before_query endpoint)).

(** [updateRateLimits(response, bucketId)] *)
Definition updateRateLimits (h : Headers) (bucketId : string) (now : Z)
    (m : RESTManager) : RESTManager :=
  let limit := default 1 (x_ratelimit_limit h) in
  let remaining := default 1 (x_ratelimit_remaining h) in
  let reset := default 0 (x_ratelimit_reset h) in
  let resetAfter := default 0 (x_ratelimit_reset_after h) in
  let bucket := x_ratelimit_bucket h in
  if x_ratelimit_global h
  then set_global remaining (now + resetAfter * 1000) m
  else set_buckets
         (<[bucketId := {| limit := limit; remaining := remaining;
                           reset := reset; resetAfter := resetAfter;
                           bucket := bucket; global := false |}]> (buckets m))
         m.

(** [Number.parseInt(error.requestData?.retry_after || "1000")]: a missing
    field and the number 0 are both falsy. *)
Definition retryAfter (retry_after : option Z) : Z :=
  match retry_after with
  | Some n => if n =? 0 then 1000 else n
  | None => 1000
  end.

(** What the dispatcher does that a caller or the service can see. *)
Inductive Event :=
| Enqueued (bucketId : string) (rid : nat)
| Sent (bucketId : string) (rid : nat) (time : Z)
       (entry : option RateLimitData)   (* the table entry the worker read *)
| Resolved (bucketId : string) (rid : nat)
| Rejected (bucketId : string) (rid : nat) (status : Z).

(** The places where [processQueue] waits. *)
Inductive Await :=
| GlobalSleep (until : Z)    (* [await this.sleep(delay)], global limit *)
| BucketSleep (until : Z)    (* [await this.sleep(delay)], bucket limit *)
| Execute                    (* [await this.executeRequest(request)] *)
| RetrySleep (until : Z).    (* [await this.sleep(retryAfter)], after a 429 *)

(** A piece of [processQueue] runs from one [await] to the next: it changes
    the manager, produces events, and either waits again holding its
    [request], or has left the loop. *)
Definition Piece : Type :=
  RESTManager * list Event * option (QueuedRequest * Await).

Section WithOptions.

Variable options : RESTOptions.

(** From [await this.executeRequest(request)] on: the request is sent. *)
Definition execute (bucketId : string) (request : QueuedRequest) (now : Z)
    (m : RESTManager) : Piece :=
  (m, [Sent bucketId (id request) now (buckets m !! bucketId)],
   Some (request, Execute)).

(** From the bucket check on. *)
Definition bucket_check (bucketId : string) (request : QueuedRequest)
    (now : Z) (m : RESTManager) : Piece :=
  match buckets m !! bucketId with
  | Some bucket =>
      if (remaining bucket <=? 0) && (now <? reset bucket * 1000)
      then (m, [], Some (request, BucketSleep (now + (reset bucket * 1000 - now))))
      else execute bucketId request now m
  | None => execute bucketId request now m
  end.

(** From the global check on. *)
Definition global_check (bucketId : string) (request : QueuedRequest)
    (now : Z) (m : RESTManager) : Piece :=
  if (globalRemaining m <=? 0) && (now <? globalReset m)
  then (m, [], Some (request, GlobalSleep (now + (globalReset m - now))))
  else bucket_check bucketId request now m.

(** The head of [while (queue.length > 0)], and what follows the loop. *)
Definition loop (bucketId : string) (now : Z) (m : RESTManager) : Piece :=
  match default [] (queues m !! bucketId) with
  | [] => (set_processing (processing m ∖ {[bucketId]}) m, [], None)
  | request :: rest =>
      global_check bucketId request now
        (set_queues (<[bucketId := rest]> (queues m)) m)
  end.

(** [queue.unshift(request)] *)
Definition unshift (bucketId : string) (request : QueuedRequest)
    (m : RESTManager) : RESTManager :=
  set_queues (alter (fun queue => request :: queue) bucketId (queues m)) m.

(** The [catch] block, for an error of the given status. *)
Definition catch (bucketId : string) (request : QueuedRequest) (status : Z)
    (retry_after : option Z) (now : Z) (m : RESTManager) : Piece :=
  if status =? 429
  then (m, [], Some (request, RetrySleep (now + retryAfter retry_after)))
  else if retries request <? rateLimitRetryLimit options
  then loop bucketId now (unshift bucketId (retry request) m)
  else
    match loop bucketId now m with
    | (m', evs, w) => (m', Rejected bucketId (id request) status :: evs, w)
    end.

(** [executeRequest] settles: the rest of the [try] block, or the [catch]. *)
Definition settled (bucketId : string) (request : QueuedRequest)
    (r : FetchResult) (now : Z) (m : RESTManager) : Piece :=
  match r with
  | Response status headers retry_after =>
      let m1 :=
        updateRateLimits headers
          (getBucketId (endpoint request) (method request)) now m in
      if ok status
      then
        match loop bucketId now m1 with
        | (m', evs, w) => (m', Resolved bucketId (id request) :: evs, w)
        end
      else catch bucketId request status retry_after now m1
  | NetworkError => catch bucketId request 0 None now m
  end.

(** A sleep of the given kind is over. *)
Definition woken (bucketId : string) (request : QueuedRequest) (a : Await)
    (now : Z) (m : RESTManager) : option Piece :=
  match a with
  | GlobalSleep _ => Some (bucket_check bucketId request now m)
  | BucketSleep _ => Some (execute bucketId request now m)
  | RetrySleep _ => Some (loop bucketId now (unshift bucketId request m))
  | Execute => None
  end.

(** [processQueue(bucketId)], from the call to its first [await]. *)
Definition processQueue (bucketId : string) (now : Z) (m : RESTManager)
    : option Piece :=
  if bool_decide (bucketId ∈ processing m) then None
  else
    match queues m !! bucketId with
    | None | Some [] => None
    | Some _ =>
        Some (loop bucketId now
                (set_processing ({[bucketId]} ∪ processing m) m))
    end.

(** [queueRequest(request)], up to the call of [processQueue]. *)
Definition push (bucketId : string) (request : QueuedRequest)
    (m : RESTManager) : RESTManager :=
  let qs := if bool_decide (is_Some (queues m !! bucketId))
            then queues m else <[bucketId := []]> (queues m) in
  set_queues (alter (fun queue => queue ++ [request]) bucketId qs) m.

(** *** The event loop

    The invocations of [processQueue] that got past its guards, in the order
    they started; each one waits somewhere, or has returned. *)
Record Task := {
  task_bucket : string;
  task_state : option (QueuedRequest * Await)
}.

Record World := {
  manager : RESTManager;
  tasks : list Task;
  now : Z;                     (* [Date.now()] *)
  next_id : nat;
  history : list Event
}.

Definition start : World :=
  {| manager := initial; tasks := []; now := 0; next_id := 0; history := [] |}.

Inductive Input :=
| Request (endpoint method : string)     (* a caller's [request()] *)
| Elapse (dt : Z)                        (* time passes *)
| TimerFired (i : nat)                   (* the sleep of task [i] is over *)
| Settled (i : nat) (r : FetchResult).   (* the fetch of task [i] settles *)

Definition until (a : Await) : option Z :=
  match a with
  | GlobalSleep u | BucketSleep u | RetrySleep u => Some u
  | Execute => None
  end.

(** [request()] and [queueRequest()] *)
Definition queueRequest (endpoint method : string) (w : World) : World :=
  let request := {| id := next_id w; endpoint := endpoint; method := method;
                    retries := 0 |} in
  let bucketId := getBucketId endpoint method in
  let m := push bucketId request (manager w) in
  match processQueue bucketId (now w) m with
  | None =>
      {| manager := m; tasks := tasks w; now := now w;
         next_id := S (next_id w);
         history := history w ++ [Enqueued bucketId (id request)] |}
  | Some (m', evs, st) =>
      {| manager := m';
         tasks := tasks w ++ [{| task_bucket := bucketId; task_state := st |}];
         now := now w; next_id := S (next_id w);
         history := history w ++ Enqueued bucketId (id request) :: evs |}
  end.

(** Task [i] ran a piece. *)
Definition resumed (i : nat) (bucketId : string) (p : Piece) (w : World)
    : World :=
  match p with
  | (m', evs, st) =>
      {| manager := m';
         tasks := <[i := {| task_bucket := bucketId; task_state := st |}]>
                    (tasks w);
         now := now w; next_id := next_id w;
         history := history w ++ evs |}
  end.

(** One turn of the event loop; [None] when the input cannot happen in this
    world: a timer does not fire early, and only a request in flight
    settles. *)
Definition step (i : Input) (w : World) : option World :=
  match i with
  | Request endpoint method => Some (queueRequest endpoint method w)
  | Elapse dt =>
      if 0 <=? dt
      then Some {| manager := manager w; tasks := tasks w; now := now w + dt;
                   next_id := next_id w; history := history w |}
      else None
  | TimerFired i =>
      match tasks w !! i with
      | Some {| task_bucket := b; task_state := Some (request, a) |} =>
          match until a with
          | Some u =>
              if u <=? now w
              then p ← woken b request a (now w) (manager w);
                   Some (resumed i b p w)
              else None
          | None => None
          end
      | _ => None
      end
  | Settled i r =>
      match tasks w !! i with
      | Some {| task_bucket := b; task_state := Some (request, Execute) |} =>
          Some (resumed i b (settled b request r (now w) (manager w)) w)
      | _ => None
      end
  end.

Fixpoint run (inputs : list Input) (w : World) : option World :=
  match inputs with
  | [] => Some w
  | i :: rest => w' ← step i w; run rest w'
  end.

End WithOptions.

(** The defaults of [AstriumClient]. *)
Definition default_options : RESTOptions :=
  {| timeout := 15000; rateLimitRetryLimit := 3 |}.

(** *** What the claims speak about *)

Definition bucket_of (r : QueuedRequest) : string :=
  getBucketId (endpoint r) (method r).

(** The requests submitted to a bucket, and the requests of a bucket that
    were completed (resolved or rejected), by [id], oldest first. *)
Definition submission (b : string) (e : Event) : list nat :=
  match e with
  | Enqueued b' i => if decide (b' = b) then [i] else []
  | _ => []
  end.
Definition completion (b : string) (e : Event) : list nat :=
  match e with
  | Resolved b' i | Rejected b' i _ => if decide (b' = b) then [i] else []
  | _ => []
  end.
Definition submissions (b : string) (h : list Event) : list nat :=
  h ≫= submission b.
Definition completions (b : string) (h : list Event) : list nat :=
  h ≫= completion b.

(** The completions of all buckets, in the order they happened. *)
Definition completed (e : Event) : list nat :=
  match e with
  | Resolved _ i | Rejected _ i _ => [i]
  | _ => []
  end.

(** The invocations of [processQueue] for a bucket that have not returned,
    each with the request it holds and where it waits. *)
Definition live_in (b : string) (t : Task) : list (QueuedRequest * Await) :=
  if decide (task_bucket t = b) then option_list (task_state t) else [].
Definition workers (b : string) (ts : list Task)
    : list (QueuedRequest * Await) :=
  ts ≫= live_in b.

(** The requests of a bucket whose fetch was issued and has not settled. *)
Definition flying (x : QueuedRequest * Await) : list QueuedRequest :=
  match x with (r, Execute) => [r] | _ => [] end.
Definition in_flight (b : string) (ts : list Task) : list QueuedRequest :=
  workers b ts ≫= flying.

(** The table entry does not forbid sending at this time. *)
Definition admissible (time : Z) (entry : option RateLimitData) : Prop :=
  forall data, entry = Some data ->
    ~ (remaining data <= 0 /\ time < reset data * 1000).

Definition sent_ok (e : Event) : Prop :=
  match e with
  | Sent _ _ time entry => admissible time entry
  | _ => True
  end.

(** *** The invariant of the event loop *)

Definition ids (q : list QueuedRequest) : list nat := id <$> q.
Definition holds (st : option (QueuedRequest * Await)) : list nat :=
  match st with Some (r, _) => [id r] | None => [] end.
Definition tagged (b : string) (q : list QueuedRequest) : Prop :=
  Forall (fun r => bucket_of r = b) q.

(** A worker that sleeps for its bucket's limit wakes no earlier than the
    reset of the entry it read. *)
Definition sleep_ok (b : string) (m : RESTManager) (a : Await) : Prop :=
  forall u, a = BucketSleep u ->
    exists data, buckets m !! b = Some data /\ reset data * 1000 <= u.

(** An event a worker of bucket [b] may produce. *)
Definition own_event (b : string) (e : Event) : Prop :=
  match e with
  | Enqueued _ _ => False
  | Sent b' _ _ _ | Resolved b' _ | Rejected b' _ _ => b' = b
  end.

(** Outside bucket [b] the two managers agree. *)
Definition frame (b : string) (m m' : RESTManager) : Prop :=
  forall b', b' <> b ->
    queues m' !! b' = queues m !! b'
    /\ buckets m' !! b' = buckets m !! b'
    /\ (b' ∈ processing m' <-> b' ∈ processing m).

(** What a piece run for bucket [b] from manager [m] may do, where
    [pending] lists the request the worker held (if any) followed by the
    queue of the bucket. *)
Definition piece_ok (b : string) (m : RESTManager) (pending : list nat)
    (p : Piece) : Prop :=
  match p with
  | (m', evs, st) =>
      frame b m m'
      /\ (b ∈ processing m' <-> is_Some st)
      /\ (exists q, queues m' !! b = Some q /\ tagged b q
                    /\ pending = completions b evs ++ holds st ++ ids q)
      /\ Forall (own_event b) evs
      /\ Forall sent_ok evs
      /\ (forall r a, st = Some (r, a) -> bucket_of r = b /\ sleep_ok b m' a)
  end.

Definition bucket_inv (w : World) (b : string) : Prop :=
  let ws := workers b (tasks w) in
  let q := default [] (queues (manager w) !! b) in
  (length ws <= 1)%nat
  /\ (b ∈ processing (manager w) <-> ws <> [])
  /\ (ws <> [] -> is_Some (queues (manager w) !! b))
  /\ tagged b q
  /\ submissions b (history w)
     = completions b (history w) ++ (ws ≫= fun x => [id (fst x)]) ++ ids q
  /\ (forall r a, (r, a) ∈ ws -> bucket_of r = b /\ sleep_ok b (manager w) a).

Definition Inv (w : World) : Prop :=
  (forall b, bucket_inv w b) /\ Forall sent_ok (history w).


(** The claim about the service's bucket key as the specification words
    it: the entry is stored under the key the service sent. *)
Definition spec_rekeyed (headers : Headers) (bucketId : string) (now : Z)
    (m : RESTManager) : Prop :=
  forall key,
    x_ratelimit_global headers = false ->
    x_ratelimit_bucket headers = Some key ->
    key <> bucketId ->
    is_Some (buckets (updateRateLimits headers bucketId now m) !! key).

Definition no_headers : Headers :=
  {| x_ratelimit_limit := None; x_ratelimit_remaining := None;
     x_ratelimit_reset := None; x_ratelimit_reset_after := None;
     x_ratelimit_bucket := None; x_ratelimit_global := false |}.

(** Headers of a route with a limit of 5, 4 left, resetting at second 10,
    which the service counts in the bucket "abcd1234". *)
Definition keyed_headers : Headers :=
  {| x_ratelimit_limit := Some 5; x_ratelimit_remaining := Some 4;
     x_ratelimit_reset := Some 10; x_ratelimit_reset_after := Some 1;
     x_ratelimit_bucket := Some "abcd1234"; x_ratelimit_global := false |}.

(** Two requests to two buckets, settled in either order. *)
Definition first_then_second : list Input :=
  [ Request "/users/@me" "GET"; Request "/gateway/bot" "GET";
    Settled 0 (Response 200 no_headers None);
    Settled 1 (Response 200 no_headers None) ].
Definition second_then_first : list Input :=
  [ Request "/users/@me" "GET"; Request "/gateway/bot" "GET";
    Settled 1 (Response 200 no_headers None);
    Settled 0 (Response 200 no_headers None) ].


(** A request that is answered 429 with a wait of 500 ms, three times over,
    and then 200; a second request to the same route arrives meanwhile. *)
Definition rate_limited (ra : Z) : FetchResult :=
  Response 429 no_headers (Some ra).
Definition thrice_limited : list Input :=
  [ Request "/channels/1" "GET";
    Settled 0 (rate_limited 500);
    Request "/channels/1" "GET";
    Elapse 500; TimerFired 0;
    Settled 0 (rate_limited 500); Elapse 500; TimerFired 0;
    Settled 0 (rate_limited 500); Elapse 500; TimerFired 0;
    Settled 0 (Response 200 no_headers None) ].



(** *** More of the dispatcher: what it never does *)

(** The requests [request()] has taken, by [id]. *)
Definition enqueued (e : Event) : list nat :=
  match e with
  | Enqueued _ i => [i]
  | _ => []
  end.

(** What [processQueue] itself may produce: it takes no request, and it
    rejects none for a 429. *)
Definition worker_event (e : Event) : Prop :=
  match e with
  | Enqueued _ _ => False
  | Rejected _ _ status => status <> 429
  | Sent _ _ _ _ | Resolved _ _ => True
  end.

(** The retry counter of a request a worker holds, and of a request that
    waits in a queue. *)
Definition bounded (options : RESTOptions) (r : QueuedRequest) : Prop :=
  0 <= retries r <= Z.max 0 (rateLimitRetryLimit options).
Definition fresh (m : RESTManager) : Prop :=
  forall b q, queues m !! b = Some q -> Forall (fun r => retries r = 0) q.
Definition retries_inv (options : RESTOptions) (w : World) : Prop :=
  fresh (manager w)
  /\ forall i b r a,
       tasks w !! i = Some {| task_bucket := b; task_state := Some (r, a) |} ->
       bounded options r.

(** A queue that holds a request has an invocation of [processQueue] that
    has not returned. *)
Definition idle_inv (w : World) : Prop :=
  forall b, workers b (tasks w) = [] ->
            default [] (queues (manager w) !! b) = [].

(** What a piece run for bucket [b] does to the queues. *)
Definition piece_queues (b : string) (m : RESTManager) (p : Piece) : Prop :=
  match p with
  | (m', _, st) =>
      (forall b', b' <> b -> queues m' !! b' = queues m !! b')
      /\ (st = None -> default [] (queues m' !! b) = [])
  end.

(** What a piece does to the retry counters. *)
Definition piece_retries (options : RESTOptions) (p : Piece) : Prop :=
  match p with
  | (m', _, st) =>
      fresh m' /\ forall r a, st = Some (r, a) -> bounded options r
  end.

(** A piece that went through the checks before a request is sent: the
    manager is as it was and the worker still holds the request. *)
Definition checked (b : string) (r : QueuedRequest) (m : RESTManager)
    (p : Piece) : Prop :=
  exists a evs, p = (m, evs, Some (r, a)) /\ Forall worker_event evs.

(** What a piece of the worker of bucket [b] does, [held] saying that the
    request it held had its counter within the limit. *)
Definition piece_facts (options : RESTOptions) (b : string)
    (m : RESTManager) (held : Prop) (p : Piece) : Prop :=
  Forall worker_event (snd (fst p))
  /\ piece_queues b m p
  /\ (fresh m -> held -> piece_retries options p).

(** [APIBaseURL] of [constants/API.ts], with [APIVersion] 10. *)
Definition APIBaseURL : string := "https://discord.com/api/v10".

(** [endpoint.startsWith("/")] *)
Definition startsWith_slash (endpoint : string) : bool :=
  match endpoint with
  | String c _ => Ascii.eqb c "/"%char
  | EmptyString => false
  end.

(** [buildURL(endpoint, versioned)] *)
Definition buildURL (endpoint : string) (versioned : bool) : string :=
  let base := if versioned then APIBaseURL else "https://discord.com/api" in
  String.append base
    (if startsWith_slash endpoint then endpoint
     else String.append "/" endpoint).

(** No ":" in a method name, as in the five methods of [RequestOptions]. *)
Fixpoint no_colon (method : string) : bool :=
  match method with
  | EmptyString => true
  | String c rest => negb (Ascii.eqb c ":"%char) && no_colon rest
  end.

(** A request that is answered 500 four times over, and so rejected, and
    one that is answered 200. *)
Definition server_error : FetchResult := Response 500 no_headers None.
Definition rejected_then_resolved : list Input :=
  [ Request "/channels/1" "GET"; Request "/channels/1" "GET";
    Settled 0 server_error; Settled 0 server_error;
    Settled 0 server_error; Settled 0 server_error;
    Settled 0 (Response 200 no_headers None) ].

(** A request on a dispatcher that has seen no other, with every attempt
    failing on the network: [fetch] rejects, or the timeout aborts it. *)
Definition failing (endpoint method : string) (attempts : nat) : list Input :=
  Request endpoint method :: replicate attempts (Settled 0 NetworkError).

(** The world while attempt [k] of that request (counting from 0) is in
    flight. *)
Definition failing_state (endpoint method : string) (k : nat) (w : World)
    : Prop :=
  let b := getBucketId endpoint method in
  tasks w
  = [ {| task_bucket := b;
         task_state :=
           Some ({| id := 0; endpoint := endpoint; method := method;
                    retries := Z.of_nat k |}, Execute) |} ]
  /\ now w = 0
  /\ history w = Enqueued b 0 :: replicate (S k) (Sent b 0 0 None)
  /\ queues (manager w) !! b = Some []
  /\ buckets (manager w) !! b = None
  /\ globalRemaining (manager w) = 1.


(** Two requests for one URL, one written without the leading slash. *)
Definition same_url_twice : list Input :=
  [ Request "users/@me" "GET"; Request "/users/@me" "GET" ].

End REST.

(** * Facts about the gateway *)

Module GatewayFacts.
Import Gateway.
Local Open Scope gw_scope.

Ltac in_list :=
  repeat first [ apply list_elem_of_here | apply list_elem_of_further ].

Ltac gw_unfold :=
  unfold on_message, on_close, on_error, handlePayload, handleDispatch,
    handleReady, handleHello, handleClose, heartbeat_tick, startHeartbeat,
    sendHeartbeat, identify, resume, reconnect, reconnect_failed, send,
    disconnect, connect, connect_opened,
    try_catch, when, bind, ret, throw, get, modify, tell,
    state_of, actions_of, outcome_of in *.

Section Sequence.

Variable client : Client.


Lemma run_cons i rest m :
  run client (i :: rest) m
  = (fst (run client rest (state_of (step client i m))),
     actions_of (step client i m)
       ++ snd (run client rest (state_of (step client i m)))).
Proof. reflexivity. Qed.


End Sequence.





Section Close.

Variable client : Client.

(** C2, as the source has it.  When the socket closes with one of the six
    codes of [nonRecoverableCodes], the close handler returns normally,
    stops the heartbeat timer, emits the [disconnect] event once with the
    code and the reason, writes an error line to the log, emits no [error]
    event, and starts no reconnect: no [reconnecting] event, no delay, no
    new socket, and the reconnect counter and flag keep their values. *)
Theorem fatal_close_is_logged_not_emitted m code reason :
  code ∈ nonRecoverableCodes client ->
  let r := on_close client code reason m in
  outcome_of r = Returned tt
  /\ count is_disconnect_event (actions_of r) = 1%nat
  /\ Emit (EvDisconnect code reason) ∈ actions_of r
  /\ Log ERROR "WebSocket closed with non-recoverable code" ∈ actions_of r
  /\ count is_error_event (actions_of r) = 0%nat
  /\ count is_reconnect (actions_of r) = 0%nat
  /\ heartbeatInterval (state_of r) = None
  /\ reconnectAttempts (state_of r) = reconnectAttempts m
  /\ isReconnecting (state_of r) = isReconnecting m.
Proof.
  intros Hin r. subst r. gw_unfold. unfold shouldReconnect.
  rewrite (bool_decide_eq_true_2 _ Hin).
  destruct m as [[rs|] [ms|] ack sq sid url n rc]; cbn;
    repeat split; try reflexivity; in_list.
Qed.

End Close.

(** A ready session closed with 4004: one [disconnect], no [error]. *)
Lemma fatal_close_is_logged_not_emitted_witness :
  let m := fst (run example_client ready_session initial) in
  let r := on_close example_client 4004 "Authentication failed." m in
  count is_disconnect_event (actions_of r) = 1%nat
  /\ count is_error_event (actions_of r) = 0%nat
  /\ count is_reconnect (actions_of r) = 0%nat.
Proof.
  intros m r.
  assert (Hin : 4004 ∈ nonRecoverableCodes example_client)
    by (vm_compute; in_list).
  destruct (fatal_close_is_logged_not_emitted example_client m 4004
              "Authentication failed." Hin)
    as (_ & Hone & _ & _ & Herr & Hrec & _).
  exact (conj Hone (conj Herr Hrec)).
Defined.

(** C2, as the specification words it, fails: on an authentication failure
    (4004) no [error] event is emitted at all, where one is claimed. *)
Lemma fatal_close_emits_no_error :
  let m := fst (run example_client ready_session initial) in
  4004 ∈ nonRecoverableCodes example_client
  /\ count is_error_event
       (actions_of (on_close example_client 4004 "Authentication failed." m))
     = 0%nat
  /\ ~ spec_fatal_close example_client m 4004 "Authentication failed.".
Proof.
  intros m. split; [vm_compute; in_list|]. split; [reflexivity|].
  unfold spec_fatal_close. vm_compute. intros [H _]. discriminate.
Qed.

(** C10.  While there is no socket, or the socket is not open, [send]
    returns normally, leaves every field of the manager as it was, and
    writes nothing to the socket: all it does is log a warning. *)
Theorem send_without_open_socket_is_dropped m payload :
  ws m <> Some OPEN ->
  let r := send payload m in
  outcome_of r = Returned tt
  /\ state_of r = m
  /\ count is_write (actions_of r) = 0%nat
  /\ actions_of r = [Log WARN "Cannot send payload: WebSocket not connected"].
Proof.
  intros Hws r. subst r. gw_unfold.
  destruct (ws m) as [[]|]; cbn; try done.
Qed.

(** A presence update sent with no socket, and with a socket that is still
    connecting. *)
Lemma send_without_open_socket_is_dropped_witness :
  let p := {| op := 3; d := DOpaque "presence"; s := None; t := None |} in
  (state_of (send p initial) = initial
   /\ count is_write (actions_of (send p initial)) = 0%nat)
  /\ (state_of (send p (set_ws (Some CONNECTING) initial))
      = set_ws (Some CONNECTING) initial).
Proof.
  intros p. split.
  - assert (H : ws initial <> Some OPEN) by discriminate.
    destruct (send_without_open_socket_is_dropped initial p H)
      as (_ & Hst & Hwr & _).
    exact (conj Hst Hwr).
  - assert (H : ws (set_ws (Some CONNECTING) initial) <> Some OPEN)
      by discriminate.
    destruct (send_without_open_socket_is_dropped _ p H)
      as (_ & Hst & _).
    exact Hst.
Defined.

Section Heartbeat.

Variable client : Client.

(** While a reconnect is under way, [reconnect] does nothing at all. *)
Lemma reconnect_guard m :
  isReconnecting m = true -> reconnect client m = (Returned tt, m, []).
Proof. intros H. gw_unfold. by rewrite H. Qed.


Lemma preserves_ret {A} (a : A) : preserves (ret a).
Proof. by intros m. Qed.
Lemma preserves_tell a : preserves (tell a).
Proof. by intros m. Qed.
Lemma preserves_throw {A} msg : preserves (@throw A msg).
Proof. by intros m. Qed.
Lemma preserves_get : preserves get.
Proof. by intros m. Qed.

Lemma preserves_bind {A B} (c : M A) (k : A -> M B) :
  preserves c -> (forall a, preserves (k a)) -> preserves (bind c k).
Proof.
  intros Hc Hk m Hm. specialize (Hc m Hm). unfold bind, state_of in *.
  destruct (c m) as [[[a|e] m1] l1]; cbn in *; [|done].
  specialize (Hk a m1 Hc). unfold state_of in Hk.
  by destruct (k a m1) as [[o m2] l2].
Qed.

Lemma preserves_try_catch {A} (c : M A) h :
  preserves c -> (forall e, preserves (h e)) -> preserves (try_catch c h).
Proof.
  intros Hc Hh m Hm. specialize (Hc m Hm). unfold try_catch, state_of in *.
  destruct (c m) as [[[a|e] m1] l1]; cbn in *; [done|].
  specialize (Hh e m1 Hc). unfold state_of in Hh.
  by destruct (h e m1) as [[o m2] l2].
Qed.

Lemma preserves_when b c : preserves c -> preserves (when b c).
Proof. destruct b; [done|]. intros _. apply preserves_ret. Qed.

(** Writing a field other than the counter and the flag. *)
Lemma preserves_modify f :
  (forall m, reconnectAttempts (f m) = reconnectAttempts m) ->
  (forall m, isReconnecting (f m) = isReconnecting m) ->
  preserves (modify f).
Proof.
  intros Hn Hrc m Hm. unfold attempts_follow_flag, modify, state_of in *.
  cbn. by rewrite Hn, Hrc.
Qed.

(** Clearing the flag and the counter, as [READY] and [RESUMED] do. *)
Lemma preserves_reset (k : M unit) :
  preserves k ->
  preserves (modify (set_isReconnecting false) ;;
             modify (set_reconnectAttempts 0) ;; k).
Proof.
  intros Hk m _. unfold bind, modify, state_of. cbn.
  specialize (Hk (set_reconnectAttempts 0 (set_isReconnecting false m))
                eq_refl).
  unfold state_of in Hk. by destruct (k _) as [[o m2] l2].
Qed.

Create HintDb gw_pres.
#[local] Hint Resolve preserves_ret preserves_tell preserves_throw
  preserves_get preserves_when preserves_reset : gw_pres.

Ltac pres :=
  repeat first
    [ progress (auto with gw_pres)
    | apply preserves_bind; [|intros ?]
    | apply preserves_try_catch; [|intros ?]
    | apply preserves_when
    | apply preserves_modify; intros [[rs|] ? ? ? ? ? ? ?]; reflexivity
    | case_match ].

Lemma preserves_send p : preserves (send p).
Proof. unfold send. pres. Qed.
#[local] Hint Resolve preserves_send : gw_pres.

Lemma preserves_sendHeartbeat : preserves sendHeartbeat.
Proof. unfold sendHeartbeat. pres. Qed.
#[local] Hint Resolve preserves_sendHeartbeat : gw_pres.

Lemma preserves_identify : preserves (identify client).
Proof. unfold identify. pres. Qed.

Lemma preserves_resume : preserves (resume client).
Proof. unfold resume. pres. Qed.

Lemma preserves_reconnect : preserves (reconnect client).
Proof.
  intros m Hm. destruct (isReconnecting m) eqn:Hrc.
  - by rewrite reconnect_guard.
  - unfold attempts_follow_flag in *. rewrite Hrc in Hm.
    destruct m as [w hb ack sq sid url n rc]. cbn in *. subst.
    gw_unfold. cbn. by destruct w.
Qed.
#[local] Hint Resolve preserves_identify preserves_resume
  preserves_reconnect : gw_pres.

Lemma preserves_handlePayload p : preserves (handlePayload client p).
Proof.
  unfold handlePayload, handleDispatch, handleReady, handleHello,
    startHeartbeat.
  pres.
Qed.

Lemma preserves_handleClose code reason :
  preserves (handleClose client code reason).
Proof. unfold handleClose. pres. Qed.

Lemma preserves_connect gurl : preserves (connect client gurl).
Proof. unfold connect. pres. Qed.

Lemma preserves_disconnect code : preserves (disconnect code).
Proof.
  intros m _. unfold disconnect. gw_unfold.
  destruct m as [[rs|] [ms|] ack sq sid url n rc]; reflexivity.
Qed.
#[local] Hint Resolve preserves_handlePayload preserves_handleClose
  preserves_connect preserves_disconnect : gw_pres.

Lemma step_attempts_follow_flag i m :
  attempts_follow_flag m ->
  attempts_follow_flag (state_of (step client i m)).
Proof.
  revert m. change (preserves (step client i)).
  destruct i; cbn [step];
    unfold on_message, on_close, on_error, heartbeat_tick, connect_opened,
      reconnect_failed;
    pres.
Qed.

(** Whatever happens to a manager, its reconnect counter never passes 1:
    the branch of [reconnect] that gives up after [maxReconnectAttempts]
    attempts needs a maximum of 1 or less to be taken. *)
Lemma reconnectAttempts_at_most_1 inputs :
  let m := fst (run client inputs initial) in
  attempts_follow_flag m /\ reconnectAttempts m <= 1.
Proof.
  cbv zeta.
  assert (H : forall m, attempts_follow_flag m ->
                attempts_follow_flag (fst (run client inputs m))).
  { induction inputs as [|i rest IH]; intros m Hm; [done|].
    rewrite run_cons. cbn [fst]. by apply IH, step_attempts_follow_flag. }
  specialize (H initial eq_refl). split; [done|].
  unfold attempts_follow_flag in H. rewrite H. by destruct (isReconnecting _).
Qed.

(** The [catch] of [reconnect] runs while the flag set by [reconnect] is
    still up, so the retry it asks for is the guarded no-op: below the
    maximum it only logs. *)
Lemma reconnect_failed_does_not_retry m :
  isReconnecting m = true ->
  reconnectAttempts m < maxReconnectAttempts (ws_options client) ->
  reconnect_failed client m
  = (Returned tt, m, [Log ERROR "Reconnection failed:"]).
Proof.
  intros Hrc Hlt. unfold reconnect_failed, bind, tell, get. cbn.
  destruct (Z.ltb_spec (reconnectAttempts m)
              (maxReconnectAttempts (ws_options client))); [|lia].
  by rewrite reconnect_guard.
Qed.

End Heartbeat.



(** C3: the source at the failing input.  With the default maximum of five
    attempts, a ready session loses its connection and the first attempt to
    connect again is refused.  The counter stands at 1, below the maximum;
    the [catch] of [reconnect] calls [reconnect], which returns at its
    guard, and so does the call from the close handler: nothing starts a
    second attempt, and no terminal error is emitted. *)
Theorem failed_reconnect_is_not_retried :
  let m := fst (run example_client reconnect_pending initial) in
  let r := run example_client connect_refused m in
  reconnectAttempts m = 1
  /\ isReconnecting m = true
  /\ maxReconnectAttempts (ws_options example_client) = 5
  /\ count is_reconnect (snd r) = 0%nat
  /\ (Emit (EvError "Max reconnection attempts reached") ∉ snd r)
  /\ reconnectAttempts (fst r) = 1
  /\ isReconnecting (fst r) = true.
Proof.
  intros m r. repeat split; try reflexivity.
  rewrite list_elem_of_In. vm_compute. intuition discriminate.
Qed.

End GatewayFacts.

(** * Facts about the REST dispatcher *)

Module RESTFacts.
Import REST.

(** ** Workers of a bucket in the task list *)

Lemma workers_app b ts1 ts2 :
  workers b (ts1 ++ ts2) = workers b ts1 ++ workers b ts2.
Proof. apply bind_app. Qed.

Lemma workers_cons b t ts : workers b (t :: ts) = live_in b t ++ workers b ts.
Proof. reflexivity. Qed.

Lemma live_in_own b st :
  live_in b {| task_bucket := b; task_state := st |} = option_list st.
Proof. unfold live_in. cbn. by rewrite decide_True. Qed.

Lemma live_in_other b b' st :
  b' <> b -> live_in b' {| task_bucket := b; task_state := st |} = [].
Proof. intros H. unfold live_in. cbn. by rewrite decide_False. Qed.

Lemma workers_singleton b t : workers b [t] = live_in b t.
Proof. apply bind_singleton. Qed.

Lemma workers_split b ts i t :
  ts !! i = Some t ->
  workers b ts
  = workers b (take i ts) ++ live_in b t ++ workers b (drop (S i) ts).
Proof.
  intros H. rewrite <- (take_drop_middle ts i t H) at 1.
  by rewrite workers_app, workers_cons.
Qed.

Lemma workers_insert b ts i t t' :
  ts !! i = Some t ->
  workers b (<[i:=t']> ts)
  = workers b (take i ts) ++ live_in b t' ++ workers b (drop (S i) ts).
Proof.
  intros H. rewrite insert_take_drop by (by eapply lookup_lt_Some).
  by rewrite workers_app, workers_cons.
Qed.

(** Replacing a task by one of the same bucket changes nothing for the
    other buckets. *)
Lemma workers_insert_ne b b' ts i st st' :
  ts !! i = Some {| task_bucket := b; task_state := st |} ->
  b' <> b ->
  workers b' (<[i:={| task_bucket := b; task_state := st' |}]> ts)
  = workers b' ts.
Proof.
  intros H Hne. rewrite (workers_insert _ _ _ _ _ H), (workers_split _ _ _ _ H).
  unfold live_in. cbn. by rewrite !decide_False by done.
Qed.

(** The only worker of a bucket, when there is at most one. *)
Lemma workers_insert_eq b ts i x st' :
  ts !! i = Some {| task_bucket := b; task_state := Some x |} ->
  (length (workers b ts) <= 1)%nat ->
  workers b ts = [x]
  /\ workers b (<[i:={| task_bucket := b; task_state := st' |}]> ts)
     = option_list st'.
Proof.
  intros H Hlen.
  rewrite (workers_insert _ _ _ _ _ H), (workers_split _ _ _ _ H) in *.
  unfold live_in in *. cbn in *. rewrite !decide_True in * by done.
  cbn in Hlen. rewrite !length_app in Hlen. cbn in Hlen.
  destruct (workers b (take i ts)) as [|y l1]; [|cbn in Hlen; lia].
  destruct (workers b (drop (S i) ts)) as [|z l2]; [|cbn in Hlen; lia].
  cbn. by rewrite app_nil_r.
Qed.

(** ** Events and the two logs *)

Lemma submissions_app b h1 h2 :
  submissions b (h1 ++ h2) = submissions b h1 ++ submissions b h2.
Proof. apply bind_app. Qed.

Lemma completions_app b h1 h2 :
  completions b (h1 ++ h2) = completions b h1 ++ completions b h2.
Proof. apply bind_app. Qed.

Lemma own_events_submissions b b' evs :
  Forall (own_event b) evs -> submissions b' evs = [].
Proof.
  induction 1 as [|e evs He _ IH]; [done|].
  unfold submissions in *. rewrite bind_cons, IH.
  by destruct e.
Qed.

Lemma own_events_completions b b' evs :
  Forall (own_event b) evs -> b' <> b -> completions b' evs = [].
Proof.
  intros H Hne. induction H as [|e evs He _ IH]; [done|].
  unfold completions in *. rewrite bind_cons, IH.
  destruct e; cbn in *; subst; try done; by rewrite decide_False.
Qed.

(** ** Frames *)

Lemma frame_refl b m : frame b m m.
Proof. by intros b' _. Qed.

Lemma frame_trans b m1 m2 m3 : frame b m1 m2 -> frame b m2 m3 -> frame b m1 m3.
Proof.
  intros H12 H23 b' Hne.
  destruct (H12 b' Hne) as (Hq & Hb & Hp), (H23 b' Hne) as (Hq' & Hb' & Hp').
  rewrite Hq', Hb', Hp'. by rewrite Hq, Hb, Hp.
Qed.

(** ** The pieces of [processQueue] *)

Section Pieces.

Variable options : RESTOptions.

Lemma piece_ok_frame b m m1 pending p :
  frame b m m1 -> piece_ok b m1 pending p -> piece_ok b m pending p.
Proof.
  destruct p as [[m' evs] st]. intros Hf (Hf' & H).
  split; [by eapply frame_trans|done].
Qed.

Lemma piece_ok_event b m pending m' evs st e :
  own_event b e -> sent_ok e ->
  piece_ok b m pending (m', evs, st) ->
  piece_ok b m (completion b e ++ pending) (m', e :: evs, st).
Proof.
  intros He Hs (Hf & Hp & (q & Hq & Ht & HL) & Hown & Hsent & Hst).
  split; [done|]. split; [done|]. split.
  { exists q. split; [done|]. split; [done|].
    unfold completions in *. by rewrite bind_cons, HL, <- app_assoc. }
  split; [by constructor|]. split; [by constructor|done].
Qed.

Lemma execute_ok b r now m q :
  queues m !! b = Some q -> tagged b q -> b ∈ processing m ->
  bucket_of r = b -> admissible now (buckets m !! b) ->
  piece_ok b m (id r :: ids q) (execute b r now m).
Proof.
  intros Hq Ht Hp Hr Ha. unfold execute, piece_ok.
  split; [apply frame_refl|]. split; [by split|]. split.
  { by exists q. }
  split; [by repeat constructor|]. split; [by repeat constructor|].
  intros r' a [= <- <-]. split; [done|]. by intros u.
Qed.

Lemma bucket_check_ok b r now m q :
  queues m !! b = Some q -> tagged b q -> b ∈ processing m ->
  bucket_of r = b ->
  piece_ok b m (id r :: ids q) (bucket_check b r now m).
Proof.
  intros Hq Ht Hp Hr. unfold bucket_check.
  destruct (buckets m !! b) as [data|] eqn:Hb.
  - destruct ((remaining data <=? 0) && (now <? reset data * 1000)) eqn:Hc.
    + split; [apply frame_refl|]. split; [by split|]. split.
      { by exists q. }
      split; [constructor|]. split; [constructor|].
      intros r' a [= <- <-]. split; [done|].
      intros u [= <-]. exists data. split; [done|lia].
    + apply (execute_ok _ _ _ _ q); try done.
      rewrite Hb. intros data' [= <-] [H1 H2].
      apply andb_false_iff in Hc as [Hc|Hc]; lia.
  - apply (execute_ok _ _ _ _ q); try done. rewrite Hb. by intros data.
Qed.

Lemma global_check_ok b r now m q :
  queues m !! b = Some q -> tagged b q -> b ∈ processing m ->
  bucket_of r = b ->
  piece_ok b m (id r :: ids q) (global_check b r now m).
Proof.
  intros Hq Ht Hp Hr. unfold global_check.
  destruct ((globalRemaining m <=? 0) && (now <? globalReset m)).
  - split; [apply frame_refl|]. split; [by split|]. split.
    { by exists q. }
    split; [constructor|]. split; [constructor|].
    intros r' a [= <- <-]. split; [done|]. by intros u.
  - by apply bucket_check_ok.
Qed.

Lemma loop_ok b now m q :
  queues m !! b = Some q -> tagged b q -> b ∈ processing m ->
  piece_ok b m (ids q) (loop b now m).
Proof.
  intros Hq Ht Hp. unfold loop. rewrite Hq. cbn.
  destruct q as [|r rest].
  - split.
    { intros b' Hne. cbn. split; [done|]. split; [done|].
      rewrite elem_of_difference, elem_of_singleton. tauto. }
    split.
    { cbn. rewrite elem_of_difference, elem_of_singleton.
      split; [tauto|]. by intros [x [=]]. }
    split; [by exists []|].
    split; [constructor|]. split; [constructor|]. by intros r a.
  - apply (piece_ok_frame _ _
             (set_queues (<[b:=rest]> (queues m)) m)).
    { intros b' Hne. cbn. by rewrite lookup_insert_ne. }
    apply (global_check_ok _ _ _ _ rest); cbn.
    + apply lookup_insert_eq.
    + by eapply Forall_inv_tail.
    + done.
    + by eapply (Forall_inv Ht).
Qed.

Lemma unshift_lookup b r m q :
  queues m !! b = Some q -> queues (unshift b r m) !! b = Some (r :: q).
Proof. intros Hq. cbn. by rewrite lookup_alter_eq, Hq. Qed.

Lemma unshift_frame b r m : frame b m (unshift b r m).
Proof. intros b' Hne. cbn. by rewrite lookup_alter_ne. Qed.

Lemma loop_unshift_ok b r now m q :
  queues m !! b = Some q -> tagged b q -> b ∈ processing m ->
  bucket_of r = b ->
  piece_ok b m (id r :: ids q) (loop b now (unshift b r m)).
Proof.
  intros Hq Ht Hp Hr.
  apply (piece_ok_frame _ _ (unshift b r m)); [apply unshift_frame|].
  apply (loop_ok _ _ _ (r :: q)).
  - by apply unshift_lookup.
  - by constructor.
  - done.
Qed.

Lemma catch_ok b r status retry_after now m q :
  queues m !! b = Some q -> tagged b q -> b ∈ processing m ->
  bucket_of r = b ->
  piece_ok b m (id r :: ids q)
    (catch options b r status retry_after now m).
Proof.
  intros Hq Ht Hp Hr. unfold catch.
  destruct (status =? 429).
  - split; [apply frame_refl|]. split; [by split|]. split.
    { by exists q. }
    split; [constructor|]. split; [constructor|].
    intros r' a [= <- <-]. split; [done|]. by intros u.
  - destruct (retries r <? rateLimitRetryLimit options).
    + by apply (loop_unshift_ok b (retry r)).
    + pose proof (loop_ok b now m q Hq Ht Hp) as Hl.
      destruct (loop b now m) as [[m' evs] st].
      pose proof (piece_ok_event b m _ m' evs st (Rejected b (id r) status)
                    eq_refl I Hl) as Hl'.
      assert (E : completion b (Rejected b (id r) status) = [id r])
        by (cbn; by rewrite decide_True).
      rewrite E in Hl'. exact Hl'.
Qed.

Lemma updateRateLimits_frame h b now m :
  frame b m (updateRateLimits h b now m)
  /\ queues (updateRateLimits h b now m) = queues m
  /\ processing (updateRateLimits h b now m) = processing m.
Proof.
  unfold updateRateLimits. destruct (x_ratelimit_global h); cbn.
  - split; [by intros b' _|done].
  - split; [|done]. intros b' Hne. cbn. by rewrite lookup_insert_ne.
Qed.

Lemma settled_ok b r res now m q :
  queues m !! b = Some q -> tagged b q -> b ∈ processing m ->
  bucket_of r = b ->
  piece_ok b m (id r :: ids q) (settled options b r res now m).
Proof.
  intros Hq Ht Hp Hr. unfold settled.
  destruct res as [status h retry_after|]; [|by apply catch_ok].
  fold (bucket_of r). rewrite Hr.
  destruct (updateRateLimits_frame h b now m) as (Hf & Hq1 & Hp1).
  set (m1 := updateRateLimits h b now m) in *.
  apply (piece_ok_frame _ _ m1); [done|].
  assert (Hq' : queues m1 !! b = Some q) by (by rewrite Hq1).
  assert (Hp' : b ∈ processing m1) by (by rewrite Hp1).
  destruct (ok status).
  - pose proof (loop_ok b now m1 q Hq' Ht Hp') as Hl.
    destruct (loop b now m1) as [[m' evs] st].
    pose proof (piece_ok_event b m1 _ m' evs st (Resolved b (id r))
                  eq_refl I Hl) as Hl'.
    assert (E : completion b (Resolved b (id r)) = [id r])
      by (cbn; by rewrite decide_True).
    rewrite E in Hl'. exact Hl'.
  - by apply catch_ok.
Qed.

Lemma woken_ok b r a u now m q p :
  queues m !! b = Some q -> tagged b q -> b ∈ processing m ->
  bucket_of r = b -> sleep_ok b m a ->
  until a = Some u -> u <= now ->
  woken b r a now m = Some p ->
  piece_ok b m (id r :: ids q) p.
Proof.
  intros Hq Ht Hp Hr Hs Hu Hle Hw.
  destruct a as [v|v| |v]; cbn in Hw, Hu; simplify_eq.
  - by apply bucket_check_ok.
  - apply execute_ok; try done.
    destruct (Hs u eq_refl) as (data & -> & Hreset).
    intros data' [= <-] [_ H]. lia.
  - by apply loop_unshift_ok.
Qed.

End Pieces.

(** ** The invariant holds in every world the event loop reaches *)

Lemma holds_workers st :
  (option_list st ≫= fun x : QueuedRequest * Await => [id (fst x)])
  = holds st.
Proof. by destruct st as [[r a]|]. Qed.

(** What the invariant says about a task that has not returned. *)
Lemma Inv_task w i b r a :
  Inv w ->
  tasks w !! i = Some {| task_bucket := b; task_state := Some (r, a) |} ->
  exists q,
    queues (manager w) !! b = Some q /\ tagged b q
    /\ b ∈ processing (manager w) /\ bucket_of r = b
    /\ sleep_ok b (manager w) a
    /\ workers b (tasks w) = [(r, a)].
Proof.
  intros [Hb _] Hi.
  destruct (Hb b) as (Hlen & Hproc & Hex & Htag & _ & Hws).
  destruct (workers_insert_eq b (tasks w) i (r, a) None Hi Hlen) as [Hw _].
  assert (Hne : workers b (tasks w) <> []) by (by rewrite Hw).
  destruct (Hex Hne) as [q Hq]. exists q. rewrite Hq in Htag.
  split; [done|]. split; [done|]. split; [by apply Hproc|].
  destruct (Hws r a) as [Hr Hs]; [rewrite Hw; apply list_elem_of_here|].
  done.
Qed.

Lemma resumed_Inv w i b r a q p :
  Inv w ->
  tasks w !! i = Some {| task_bucket := b; task_state := Some (r, a) |} ->
  queues (manager w) !! b = Some q ->
  piece_ok b (manager w) (id r :: ids q) p ->
  Inv (resumed i b p w).
Proof.
  intros [Hb Hs] Hi Hq0 Hp. destruct p as [[m' evs] st].
  destruct Hp as (Hf & Hpr & (q' & Hq & Ht & HL) & Hown & Hsent & Hst).
  split; [|cbn; by apply Forall_app].
  intros b'. destruct (decide (b' = b)) as [->|Hne].
  - destruct (Hb b) as (Hlen & Hproc & Hex & Htag & Hfifo & Hws).
    destruct (workers_insert_eq b (tasks w) i (r, a) st Hi Hlen)
      as [Hw Hw'].
    unfold bucket_inv. cbn [resumed tasks manager history].
    rewrite Hw', Hq. cbn [default].
    rewrite Hw, Hq0 in Hfifo. cbn in Hfifo.
    split. { destruct st; cbn; lia. }
    split. { rewrite Hpr. destruct st; cbn; split; try done;
             by intros [x [=]]. }
    split; [by eauto|]. split; [done|]. split.
    { rewrite submissions_app, completions_app, holds_workers.
      rewrite (own_events_submissions b b evs Hown), app_nil_r, Hfifo.
      rewrite <- app_assoc. f_equal. exact HL. }
    intros r' a' Hin. destruct st as [[r2 a2]|]; cbn in Hin.
    + apply list_elem_of_singleton in Hin as [= -> ->]. by apply Hst.
    + by apply elem_of_nil in Hin.
  - destruct (Hb b') as (Hlen & Hproc & Hex & Htag & Hfifo & Hws).
    destruct (Hf b' Hne) as (Eq & Eb & Ep).
    unfold bucket_inv. cbn [resumed tasks manager history].
    rewrite (workers_insert_ne _ _ _ _ _ _ Hi Hne), Eq, Ep.
    split; [done|]. split; [done|]. split; [done|]. split; [done|]. split.
    { rewrite submissions_app, completions_app.
      rewrite (own_events_submissions b b' evs Hown).
      rewrite (own_events_completions b b' evs Hown Hne).
      by rewrite !app_nil_r. }
    intros r' a' Hin. destruct (Hws r' a' Hin) as [Hr Hsl].
    split; [done|]. intros u Hu. rewrite Eb. by apply Hsl.
Qed.

Lemma push_lookup b r m :
  queues (push b r m) !! b = Some (default [] (queues m !! b) ++ [r]).
Proof.
  unfold push. cbn. rewrite lookup_alter_eq.
  destruct (queues m !! b) as [q|] eqn:Hq; cbn.
  - by rewrite Hq.
  - by rewrite lookup_insert_eq.
Qed.

Lemma push_frame b r m : frame b m (push b r m).
Proof.
  intros b' Hne. unfold push. cbn. rewrite lookup_alter_ne by done.
  destruct (bool_decide _); [done|]. by rewrite lookup_insert_ne.
Qed.

Lemma queueRequest_Inv e mth w : Inv w -> Inv (queueRequest e mth w).
Proof.
  intros [Hb Hs]. unfold queueRequest.
  set (r := {| id := next_id w; endpoint := e; method := mth;
               retries := 0 |}).
  set (b := getBucketId e mth).
  set (m := push b r (manager w)).
  assert (Hr : bucket_of r = b) by reflexivity.
  pose proof (push_lookup b r (manager w)) as Hq. fold m in Hq.
  pose proof (push_frame b r (manager w)) as Hf. fold m in Hf.
  destruct (Hb b) as (Hlen & Hproc & Hex & Htag & Hfifo & Hws).
  assert (Htag' : tagged b (default [] (queues (manager w) !! b) ++ [r])).
  { apply Forall_app. split; [done|]. by constructor. }
  assert (Hother : forall b', b' <> b ->
            submissions b' [Enqueued b (id r)] = []).
  { intros b' Hne. cbn. by rewrite decide_False. }
  unfold processQueue.
  destruct (bool_decide (b ∈ processing m)) eqn:Hin.
  - apply bool_decide_eq_true_1 in Hin.
    split; [|cbn; apply Forall_app; split; [done|by repeat constructor]].
    intros b'. unfold bucket_inv. cbn [tasks manager history].
    rewrite submissions_app, completions_app. cbn [completions mbind
      list_bind completion]. rewrite app_nil_r.
    destruct (decide (b' = b)) as [->|Hne].
    + rewrite Hq. cbn [default].
      split; [done|]. split; [done|]. split; [by eauto|].
      split; [done|]. split.
      { rewrite Hfifo. cbn. rewrite decide_True by done.
        unfold ids. rewrite fmap_app. cbn. by rewrite <- !app_assoc. }
      done.
    + destruct (Hb b') as (Hlen' & Hproc' & Hex' & Htag'' & Hfifo' & Hws').
      destruct (Hf b' Hne) as (Eq & Eb & Ep).
      rewrite Eq, (Hother b' Hne), app_nil_r.
      split; [done|]. split; [done|]. split; [done|]. split; [done|].
      split; [done|].
      intros r' a' Hin'. destruct (Hws' r' a' Hin') as [Hr' Hsl].
      split; [done|]. intros u Hu. by apply Hsl.
  - apply bool_decide_eq_false_1 in Hin.
    assert (Hnow : workers b (tasks w) = []).
    { destruct (workers b (tasks w)) eqn:E; [done|].
      exfalso. apply Hin.
      change (processing m) with (processing (manager w)). by apply Hproc. }
    rewrite Hq.
    destruct (default [] (queues (manager w) !! b) ++ [r]) as [|r0 rest]
      eqn:Eq0.
    { by apply app_nil in Eq0 as [_ [=]]. }
    set (m2 := set_processing ({[b]} ∪ processing m) m).
    assert (Hp2 : piece_ok b m2 (ids (r0 :: rest)) (loop b (now w) m2)).
    { apply loop_ok; [exact Hq|exact Htag'|].
      apply elem_of_union_l, elem_of_singleton. done. }
    destruct (loop b (now w) m2) as [[m' evs] st].
    destruct Hp2 as (Hf2 & Hpr & (q' & Hq' & Ht & HL) & Hown & Hsent & Hst).
    assert (Hf' : frame b (manager w) m').
    { apply (frame_trans _ _ m); [done|].
      apply (frame_trans _ _ m2); [|done].
      intros b' Hne. cbn. split; [done|]. split; [done|].
      rewrite elem_of_union, elem_of_singleton. tauto. }
    split; [|cbn; apply Forall_app; split; [done|by constructor]].
    intros b'. unfold bucket_inv. cbn [tasks manager history].
    rewrite workers_app, submissions_app, completions_app.
    change (Enqueued b (id r) :: evs) with ([Enqueued b (id r)] ++ evs).
    rewrite submissions_app, completions_app, workers_singleton.
    change (completions b' [Enqueued b (id r)]) with (@nil nat).
    destruct (decide (b' = b)) as [->|Hne].
    + rewrite Hnow, Hq', (own_events_submissions b b evs Hown).
      rewrite live_in_own. cbn [app default]. rewrite holds_workers.
      split. { destruct st; cbn; lia. }
      split. { rewrite Hpr. destruct st; cbn; split; try done;
               by intros [x [=]]. }
      split; [by eauto|]. split; [done|]. split.
      { rewrite Hfifo, Hnow. cbn. rewrite decide_True by done.
        rewrite app_nil_r. rewrite <- !app_assoc. f_equal.
        transitivity (ids (r0 :: rest)); [|exact HL].
        rewrite <- Eq0. unfold ids. by rewrite fmap_app. }
      intros r' a' Hin'. destruct st as [[r2 a2]|]; cbn in Hin'.
      * apply list_elem_of_singleton in Hin' as [= -> ->]. by apply Hst.
      * by apply elem_of_nil in Hin'.
    + destruct (Hb b') as (Hlen' & Hproc' & Hex' & Htag'' & Hfifo' & Hws').
      destruct (Hf' b' Hne) as (Eq & Eb & Ep).
      rewrite live_in_other by done. rewrite !app_nil_r.
      rewrite Eq, Ep, (Hother b' Hne).
      rewrite (own_events_submissions b b' evs Hown).
      rewrite (own_events_completions b b' evs Hown Hne).
      cbn [completions mbind list_bind completion]. rewrite !app_nil_r.
      split; [done|]. split; [done|]. split; [done|]. split; [done|].
      split; [done|].
      intros r' a' Hin'. destruct (Hws' r' a' Hin') as [Hr' Hsl].
      split; [done|]. intros u Hu. rewrite Eb. by apply Hsl.
Qed.

Section Reachable.

Variable options : RESTOptions.

Lemma Inv_start : Inv start.
Proof.
  split; [|constructor]. intros b. unfold bucket_inv. cbn.
  split; [lia|]. split; [by rewrite elem_of_empty|].
  split; [done|]. rewrite lookup_empty. cbn.
  split; [constructor|]. split; [done|].
  intros r a Hin. by apply elem_of_nil in Hin.
Qed.

Lemma step_Inv i w w' : Inv w -> step options i w = Some w' -> Inv w'.
Proof.
  intros HI. destruct i as [e mth|dt|i|i res]; cbn [step].
  - intros [= <-]. by apply queueRequest_Inv.
  - destruct (0 <=? dt); [|done]. intros [= <-]. exact HI.
  - destruct (tasks w !! i) as [[b [[r a]|]]|] eqn:Hi; try done.
    destruct (Inv_task w i b r a HI Hi)
      as (q & Hq & Ht & Hp & Hr & Hs & _).
    destruct (until a) as [u|] eqn:Hu; [|done].
    destruct (Z.leb_spec u (now w)); [|done].
    destruct (woken b r a (now w) (manager w)) as [p|] eqn:Hw; [|done].
    cbn. intros [= <-].
    apply (resumed_Inv w i b r a q); try done.
    by apply (woken_ok b r a u (now w)).
  - destruct (tasks w !! i) as [[b [[r a]|]]|] eqn:Hi; try done.
    destruct (Inv_task w i b r a HI Hi)
      as (q & Hq & Ht & Hp & Hr & Hs & _).
    destruct a; try done. intros [= <-].
    apply (resumed_Inv w i b r Execute q); try done.
    by apply settled_ok.
Qed.

Lemma run_Inv inputs w w' :
  Inv w -> run options inputs w = Some w' -> Inv w'.
Proof.
  revert w. induction inputs as [|i rest IH]; intros w HI; cbn [run].
  - by intros [= <-].
  - destruct (step options i w) as [w1|] eqn:Hstep; [|done]. cbn.
    apply IH. by eapply step_Inv.
Qed.

End Reachable.

(** ** What a worker holds from one wait to the next *)

Section Holding.

Variable options : RESTOptions.










End Holding.

(** ** The claims *)

Lemma in_flight_le b ts :
  (length (workers b ts) <= 1)%nat -> (length (in_flight b ts) <= 1)%nat.
Proof.
  unfold in_flight.
  destruct (workers b ts) as [|[r a] [|y l]]; cbn; intros H; try lia.
  destruct a; cbn; lia.
Qed.

(** C7.  In every world the dispatcher reaches, and for every bucket: at
    most one invocation of [processQueue] is alive and at most one request
    is in flight; the requests submitted to the bucket are, in this order,
    those completed, the one the worker holds, and those in the queue, so
    that completions happen in the order of submission, retries included.
    Across buckets either order of completion happens. *)
Theorem per_bucket_serial_fifo options inputs w :
  run options inputs start = Some w ->
  (forall b,
     (length (in_flight b (tasks w)) <= 1)%nat
     /\ (length (workers b (tasks w)) <= 1)%nat
     /\ submissions b (history w)
        = completions b (history w)
          ++ (workers b (tasks w) ≫= fun x => [id (fst x)])
          ++ ids (default [] (queues (manager w) !! b))
     /\ completions b (history w) `prefix_of` submissions b (history w))
  /\ ((fun w => history w ≫= completed)
        <$> run default_options first_then_second start = Some [0; 1]%nat)
  /\ ((fun w => history w ≫= completed)
        <$> run default_options second_then_first start = Some [1; 0]%nat).
Proof.
  intros Hrun. split; [|split; by vm_compute].
  destruct (run_Inv options inputs start w Inv_start Hrun) as [Hb _].
  intros b. destruct (Hb b) as (Hlen & _ & _ & _ & Hfifo & _).
  split; [by apply in_flight_le|]. split; [done|]. split; [done|].
  rewrite Hfifo. by eexists.
Qed.

(** The first of two requests to a route is rate limited three times and
    still completes before the second. *)
Lemma per_bucket_serial_fifo_witness :
  let w := default start (run default_options thrice_limited start) in
  run default_options thrice_limited start = Some w
  /\ submissions "GET:/channels/1" (history w) = [0; 1]%nat
  /\ completions "GET:/channels/1" (history w)
       `prefix_of` submissions "GET:/channels/1" (history w)
  /\ (length (in_flight "GET:/channels/1" (tasks w)) <= 1)%nat.
Proof.
  intros w.
  assert (H : run default_options thrice_limited start = Some w)
    by (by vm_compute).
  destruct (per_bucket_serial_fifo default_options thrice_limited w H)
    as [Hb _].
  destruct (Hb "GET:/channels/1") as (Hfly & _ & _ & Hpre).
  split; [exact H|]. split; [by vm_compute|]. split; [exact Hpre|exact Hfly].
Defined.









(** C8, as the source has it.  A response that is not global stores the
    entry under the locally derived key [bucketId]; the key the service
    sent is kept in the entry's [bucket] field only, and every other key of
    the table, the service's key included, is left as it was. *)
Theorem rate_limit_entry_is_kept_under_local_key headers bucketId now m :
  x_ratelimit_global headers = false ->
  let m' := updateRateLimits headers bucketId now m in
  buckets m' !! bucketId
  = Some {| limit := default 1 (x_ratelimit_limit headers);
            remaining := default 1 (x_ratelimit_remaining headers);
            reset := default 0 (x_ratelimit_reset headers);
            resetAfter := default 0 (x_ratelimit_reset_after headers);
            bucket := x_ratelimit_bucket headers;
            global := false |}
  /\ (forall key, key <> bucketId -> buckets m' !! key = buckets m !! key)
  /\ globalRemaining m' = globalRemaining m
  /\ globalReset m' = globalReset m.
Proof.
  intros Hg m'. subst m'. unfold updateRateLimits. rewrite Hg. cbn.
  split; [apply lookup_insert_eq|]. split; [|done].
  intros key Hne. by apply lookup_insert_ne.
Qed.

(** The entry of "GET:/users/@me" records the service's key "abcd1234". *)
Lemma rate_limit_entry_is_kept_under_local_key_witness :
  let m' := updateRateLimits keyed_headers "GET:/users/@me" 0 initial in
  bucket <$> buckets m' !! "GET:/users/@me" = Some (Some "abcd1234")
  /\ buckets m' !! "abcd1234" = buckets initial !! "abcd1234".
Proof.
  intros m'.
  destruct (rate_limit_entry_is_kept_under_local_key keyed_headers
              "GET:/users/@me" 0 initial eq_refl) as (Hown & Hother & _).
  split.
  - fold m' in Hown. by rewrite Hown.
  - apply Hother. discriminate.
Defined.

(** C8, as the specification words it, fails: after a response whose bucket
    header is "abcd1234", the table has no entry under that key. *)
Lemma service_bucket_key_is_not_used :
  let m' := updateRateLimits keyed_headers "GET:/users/@me" 0 initial in
  buckets m' !! "abcd1234" = None
  /\ bucket <$> buckets m' !! "GET:/users/@me" = Some (Some "abcd1234")
  /\ ~ spec_rekeyed keyed_headers "GET:/users/@me" 0 initial.
Proof.
  intros m'. split; [by vm_compute|]. split; [by vm_compute|].
  intros H. destruct (H "abcd1234" eq_refl eq_refl) as [x Hx];
    [discriminate|].
  by vm_compute in Hx.
Qed.

End RESTFacts.

(** * More facts about the gateway *)

Module GatewayMore.
Import Gateway.
Import GatewayFacts.
Local Open Scope gw_scope.

Section Handshake.

Variable client : Client.


(** X2.  An invalid-session frame clears the session id and the sequence
    number (also the one the frame itself carried), writes nothing, arms
    the 5000 ms identify timer and nothing else, and leaves the other
    fields alone.  On an open socket, what follows is a fresh identify,
    from the timer and from a [hello] alike. *)
Theorem invalid_session_forces_identify p m interval :
  op p = GatewayOpcodes.INVALID_SESSION ->
  let r := on_message client p m in
  sessionId (state_of r) = None
  /\ sequence (state_of r) = None
  /\ state_of r = set_sequence None (set_sessionId None m)
  /\ count is_write (actions_of r) = 0%nat
  /\ List.filter is_timeout (actions_of r) = [SetTimeout 5000 TIdentify]
  /\ (ws m = Some OPEN ->
      List.filter is_write (actions_of (step client InIdentifyTimer (state_of r)))
      = [WsSend (identify_frame client)]
      /\ List.filter is_write
           (actions_of (on_message client (hello interval) (state_of r)))
         = [WsSend (heartbeat None); WsSend (identify_frame client)]).
Proof.
  intros Hop r. subst r.
  destruct m as [w hb ack sq sid url n rc], p as [o dd ss tt].
  cbn in Hop. subst o. gw_unfold.
  destruct ss as [k|]; cbn; (repeat split; try reflexivity);
    subst; unfold hello; gw_unfold; cbn; destruct hb; reflexivity.
Qed.

End Handshake.


(** A ready session that is told its session is invalid. *)
Lemma invalid_session_forces_identify_witness :
  let m := fst (run example_client ready_session initial) in
  let r := on_message example_client invalid_session m in
  sessionId (state_of r) = None
  /\ List.filter is_write
       (actions_of (on_message example_client (hello 41250) (state_of r)))
     = [WsSend (heartbeat None); WsSend (identify_frame example_client)].
Proof.
  intros m r.
  destruct (invalid_session_forces_identify example_client invalid_session m
              41250 eq_refl) as (Hsid & _ & _ & _ & _ & Hnext).
  destruct (Hnext eq_refl) as [_ Hhello].
  exact (conj Hsid Hhello).
Defined.

Section Session.

Variable client : Client.

(** X3.  [disconnect] returns the manager to its initial state, but for the
    heartbeat flag, which it leaves as it is: it stops the heartbeat timer
    if one is armed, closes the socket with the given code if there is
    one, and forgets the session, so that the next handshake is an
    identify; a second [disconnect] does nothing. *)
Theorem disconnect_resets_session m code :
  let r := disconnect code m in
  outcome_of r = Returned tt
  /\ state_of r = set_lastHeartbeatAck (lastHeartbeatAck m) initial
  /\ actions_of r
     = match heartbeatInterval m with Some _ => [ClearInterval] | None => [] end
       ++ match ws m with Some _ => [WsClose (Some code)] | None => [] end
  /\ handshake_frame client (state_of r) = identify_frame client
  /\ (forall code', disconnect code' (state_of r) = (Returned tt, state_of r, [])).
Proof.
  destruct m as [[rs|] [ms|] ack sq sid url n rc]; cbn; repeat split.
Qed.

(** X4.  The socket that [reconnect] opens after its delay goes to the
    resume URL of the last [READY] when that is not empty, and to the
    default gateway otherwise; after [disconnect] a connection without a
    URL goes to the default gateway; and [connect] on an open socket
    creates nothing and changes nothing. *)
Theorem reconnect_goes_to_resume_url m seq sid url code gatewayUrl :
  (let m1 := state_of (on_message client (dispatch seq "READY" (DReady sid url)) m) in
   let m2 := state_of (reconnect client m1) in
   List.filter is_new_socket (actions_of (step client InReconnectDelay m2))
   = [NewWebSocket (if String.eqb url "" then default_gateway else url)])
  /\ List.filter is_new_socket
       (actions_of (connect client None (state_of (disconnect code m))))
     = [NewWebSocket default_gateway]
  /\ (isConnected m = true ->
      connect client gatewayUrl m
      = (Returned false, m, [Log WARN "WebSocket is already connected"])).
Proof.
  destruct m as [[rs|] [ms|] ack sq sid' url' n rc]; unfold dispatch;
    gw_unfold; cbn; (split; [by destruct url|]); (split; [done|]);
    try done; destruct rs; done.
Qed.

(** X7.  A frame the handlers cannot read (a dispatch without an event
    name, a [READY] or a [hello] with null data) does not bring the manager
    down: the error is logged, nothing is written or armed, and no field
    changes but the sequence number, which takes the value the frame
    carried. *)
Theorem unreadable_frame_is_dropped p m :
  unreadable p ->
  let r := on_message client p m in
  outcome_of r = Returned tt
  /\ state_of r
     = match s p with Some n => set_sequence (Some n) m | None => m end
  /\ actions_of r
     = [Emit (EvRaw p); Log ERROR "Failed to parse Gateway payload:"].
Proof.
  intros H r. subst r. gw_unfold.
  destruct H as [[Hop Ht]|[(Hop & Ht & Hd)|[Hop Hd]]];
    rewrite Hop; cbn; rewrite ?Ht, ?Hd; cbn;
    by destruct (s p).
Qed.

(** X8.  While a reconnect is under way, nothing starts a second one: a
    close, a heartbeat tick, a reconnect request of the service and a
    failed connection attempt all leave the counter and the flag as they
    are, emit no [reconnecting] event, arm no delay and create no
    socket. *)
Theorem reconnect_is_exclusive i m :
  isReconnecting m = true ->
  asks_reconnect i ->
  let r := step client i m in
  count is_reconnect (actions_of r) = 0%nat
  /\ reconnectAttempts (state_of r) = reconnectAttempts m
  /\ isReconnecting (state_of r) = true.
Proof.
  intros Hrc Hi r. subst r.
  destruct m as [w hb ack sq sid url n rc]. cbn in Hrc. subst rc.
  destruct i as [p|code reason|msg| | | | | |p|gurl|code]; cbn in Hi;
    try done; cbn [step].
  - gw_unfold. rewrite Hi. cbn. by destruct (s p).
  - gw_unfold. unfold shouldReconnect. cbn.
    destruct w, hb; cbn;
      destruct (negb _ && _); cbn; done.
  - gw_unfold. cbn. destruct ack; cbn; [|done]. by destruct w as [[]|].
  - gw_unfold. cbn. by destruct (n <? _).
Qed.

(** X9.  With a maximum of two attempts or more, the branch of [reconnect]
    that gives up is never taken: in whatever state a run from the initial
    state leaves the manager, a rejected connection attempt emits no
    [error] event. *)
Theorem give_up_branch_is_unreachable inputs :
  1 < maxReconnectAttempts (ws_options client) ->
  let m := fst (run client inputs initial) in
  count is_error_event (actions_of (reconnect_failed client m)) = 0%nat.
Proof.
  intros Hmax m.
  destruct (reconnectAttempts_at_most_1 client inputs) as [_ Hle].
  fold m in Hle. unfold reconnect_failed, bind, tell, get, actions_of. cbn.
  destruct (Z.ltb_spec (reconnectAttempts m)
              (maxReconnectAttempts (ws_options client))); [|lia].
  destruct (isReconnecting m) eqn:Hrc.
  - by rewrite reconnect_guard.
  - gw_unfold. rewrite Hrc. cbn. by destruct (ws m).
Qed.

(** X10.  Once a session is ready or resumed, the next close with a
    recoverable code starts a reconnect (the maximum being 1 or more): the
    [disconnect] and the [reconnecting] events are emitted, in this order
    and once each, the counter goes to 1, the socket and the heartbeat
    timer are given up, the delay is armed, and the session id, the
    sequence number and the resume URL are kept for the resume. *)
Theorem ready_session_reconnects p m code reason :
  ends_handshake p ->
  code ∉ nonRecoverableCodes client ->
  0 < maxReconnectAttempts (ws_options client) ->
  let m1 := state_of (on_message client p m) in
  let r := on_close client code reason m1 in
  List.filter is_emit (actions_of r)
  = [Emit (EvDisconnect code reason); Emit EvReconnecting]
  /\ List.filter is_timeout (actions_of r)
     = [SetTimeout (reconnectDelay (ws_options client)) TReconnectDelay]
  /\ reconnectAttempts (state_of r) = 1
  /\ isReconnecting (state_of r) = true
  /\ ws (state_of r) = None
  /\ heartbeatInterval (state_of r) = None
  /\ sessionId (state_of r) = sessionId m1
  /\ sequence (state_of r) = sequence m1
  /\ resumeGatewayUrl (state_of r) = resumeGatewayUrl m1.
Proof.
  intros (Hop & Ht) Hcode Hmax m1 r. subst r m1.
  destruct m as [w hb ack sq sid url n rc].
  assert (Hsr : forall m', reconnectAttempts m' = 0 ->
            shouldReconnect client code m' = true).
  { intros m' H0. unfold shouldReconnect. rewrite H0.
    rewrite bool_decide_eq_false_2 by done.
    by destruct (Z.ltb_spec 0 (maxReconnectAttempts (ws_options client)));
      [|lia]. }
  destruct Ht as [(Ht & sid' & url' & Hd)|Ht]; gw_unfold;
    rewrite Hop; cbn; rewrite Ht, ?Hd; cbn;
    destruct (s p), w, hb; cbn; rewrite Hsr by done; cbn; done.
Qed.


End Session.

(** An unreadable dispatch carrying 7: only the sequence number moves. *)
Lemma unreadable_frame_is_dropped_witness :
  let p := {| op := 0; d := DOpaque "x"; s := Some 7; t := None |} in
  state_of (on_message example_client p initial)
  = set_sequence (Some 7) initial.
Proof.
  intros p.
  assert (H : unreadable p) by (left; split; reflexivity).
  by destruct (unreadable_frame_is_dropped example_client p initial H)
    as (_ & Hst & _).
Defined.

(** A reconnect is pending and the socket of the attempt closes. *)
Lemma reconnect_is_exclusive_witness :
  let m := fst (run example_client reconnect_pending initial) in
  count is_reconnect
    (actions_of (step example_client (InClose 1006 "") m)) = 0%nat.
Proof.
  intros m. assert (H : isReconnecting m = true) by reflexivity.
  by destruct (reconnect_is_exclusive example_client (InClose 1006 "") m H I).
Defined.

(** The default maximum of five, after a failed reconnect. *)
Lemma give_up_branch_is_unreachable_witness :
  let m := fst (run example_client (reconnect_pending ++ connect_refused)
                  initial) in
  count is_error_event (actions_of (reconnect_failed example_client m))
  = 0%nat.
Proof.
  intros m.
  assert (H : 1 < maxReconnectAttempts (ws_options example_client))
    by reflexivity.
  exact (give_up_branch_is_unreachable example_client
           (reconnect_pending ++ connect_refused) H).
Defined.

(** A resumed session whose socket closes abnormally. *)
Lemma ready_session_reconnects_witness :
  let m := fst (run example_client silent_after_reconnect initial) in
  let m1 := state_of (on_message example_client
                        (dispatch 2 "RESUMED" (DSeq None)) m) in
  let r := on_close example_client 1006 "" m1 in
  reconnectAttempts (state_of r) = 1
  /\ sessionId (state_of r) = Some "session".
Proof.
  intros m m1 r.
  assert (Hp : ends_handshake (dispatch 2 "RESUMED" (DSeq None)))
    by (split; [reflexivity|by right]).
  assert (Hc : 1006 ∉ nonRecoverableCodes example_client).
  { rewrite list_elem_of_In. vm_compute. intuition discriminate. }
  assert (Hmax : 0 < maxReconnectAttempts (ws_options example_client))
    by reflexivity.
  destruct (ready_session_reconnects example_client _ m 1006 "" Hp Hc Hmax)
    as (_ & _ & Hn & _ & _ & _ & Hsid & _).
  split; [exact Hn|]. etrans; [exact Hsid|reflexivity].
Defined.


(** ** Nothing is written unless the socket is open *)

Lemma count_app f l1 l2 : count f (l1 ++ l2) = (count f l1 + count f l2)%nat.
Proof. unfold count. by rewrite List.filter_app, length_app. Qed.

Lemma quiet_at_ret {A} (a : A) m : quiet_at (ret a) m.
Proof. by intros H. Qed.
Lemma quiet_at_throw {A} e m : quiet_at (@throw A e) m.
Proof. by intros H. Qed.
Lemma quiet_at_tell a m : is_write a = false -> quiet_at (tell a) m.
Proof. intros Ha H. split; [done|]. unfold count. cbn. by rewrite Ha. Qed.

Lemma quiet_at_bind {A B} (c : M A) (k : A -> M B) m :
  quiet_at c m -> (forall a, quiet_at (k a) (state_of (c m))) ->
  quiet_at (bind c k) m.
Proof.
  intros Hc Hk Hm. destruct (Hc Hm) as [Hws Hn].
  unfold bind, state_of, actions_of in *.
  destruct (c m) as [[[a|e] m1] l1]; cbn in *; [|done].
  destruct (Hk a Hws) as [Hws' Hn']. unfold state_of, actions_of in *.
  destruct (k a m1) as [[o m2] l2]. cbn in *.
  split; [done|]. rewrite List.filter_app, length_app. lia.
Qed.

Lemma quiet_at_get {A} (k : WebSocketManager -> M A) m :
  quiet_at (k m) m -> quiet_at (bind get k) m.
Proof.
  intros Hk Hm. destruct (Hk Hm) as [Hws Hn].
  unfold bind, get, state_of, actions_of in *.
  by destruct (k m m) as [[o m2] l2].
Qed.

Lemma quiet_at_try_catch {A} (c : M A) h m :
  quiet_at c m -> (forall e, quiet_at (h e) (state_of (c m))) ->
  quiet_at (try_catch c h) m.
Proof.
  intros Hc Hh Hm. destruct (Hc Hm) as [Hws Hn].
  unfold try_catch, state_of, actions_of in *.
  destruct (c m) as [[[a|e] m1] l1]; cbn in *; [done|].
  destruct (Hh e Hws) as [Hws' Hn']. unfold state_of, actions_of in *.
  destruct (h e m1) as [[o m2] l2]. cbn in *.
  split; [done|]. rewrite List.filter_app, length_app. lia.
Qed.

Lemma quiet_at_when b c m : quiet_at c m -> quiet_at (when b c) m.
Proof. destruct b; [done|]. intros _. apply quiet_at_ret. Qed.

Lemma quiet_at_modify f m :
  (ws m <> Some OPEN -> ws (f m) <> Some OPEN) -> quiet_at (modify f) m.
Proof. intros Hf H. split; [by apply Hf|done]. Qed.

Lemma quiet_at_send p m : quiet_at (send p) m.
Proof.
  intros H. unfold send, bind, get, tell, state_of, actions_of. cbn.
  destruct (ws m) as [[]|] eqn:E; cbn; by try (split; [congruence|]).
Qed.

Ltac quiet :=
  repeat first
    [ apply quiet_at_send
    | apply quiet_at_ret | apply quiet_at_throw
    | apply quiet_at_tell; reflexivity
    | apply quiet_at_get
    | apply quiet_at_bind; [|intros ?]
    | apply quiet_at_try_catch; [|intros ?]
    | apply quiet_at_when
    | apply quiet_at_modify; intros ?; cbn;
      first [ done | repeat (case_match; cbn); congruence ]
    | case_match ].

Section Quiet.

Variable client : Client.

Lemma quiet_at_reconnect m : quiet_at (reconnect client) m.
Proof. unfold reconnect. quiet. Qed.

Lemma quiet_at_handlePayload p m : quiet_at (handlePayload client p) m.
Proof.
  unfold handlePayload, handleDispatch, handleReady, handleHello,
    startHeartbeat, sendHeartbeat, identify, resume.
  quiet; apply quiet_at_reconnect.
Qed.

(** X5.  Whatever the event loop runs next, if the socket is not open when
    it starts, nothing is written to the socket. *)
Theorem nothing_is_written_unless_open i m :
  ws m <> Some OPEN ->
  count is_write (actions_of (step client i m)) = 0%nat.
Proof.
  intros Hm.
  destruct i as [p|code reason|msg| | | | | |p|gurl|code]; cbn [step].
  - apply (quiet_at_try_catch (handlePayload client p)); [| |done].
    + apply quiet_at_handlePayload.
    + intros e. quiet.
  - assert (H : quiet_at (on_close client code reason) m); [|by apply H].
    unfold on_close, handleClose. quiet; apply quiet_at_reconnect.
  - done.
  - assert (H : quiet_at (heartbeat_tick client) m); [|by apply H].
    unfold heartbeat_tick, sendHeartbeat. quiet; apply quiet_at_reconnect.
  - assert (H : quiet_at (identify client) m); [|by apply H].
    unfold identify. quiet.
  - assert (H : quiet_at (_ <- connect client None ;; ret tt) m);
      [|by apply H].
    unfold connect. quiet.
  - done.
  - assert (H : quiet_at (reconnect_failed client) m); [|by apply H].
    unfold reconnect_failed. quiet; apply quiet_at_reconnect.
  - by apply quiet_at_send.
  - assert (H : quiet_at (_ <- connect client gurl ;; ret tt) m);
      [|by apply H].
    unfold connect. quiet.
  - assert (H : quiet_at (disconnect code) m); [|by apply H].
    unfold disconnect. quiet.
Qed.

End Quiet.

(** A [hello] that arrives while the socket is still connecting. *)
Lemma nothing_is_written_unless_open_witness :
  let m := set_ws (Some CONNECTING) initial in
  count is_write
    (actions_of (step example_client (InMessage (hello 41250)) m)) = 0%nat.
Proof.
  intros m. assert (H : ws m <> Some OPEN) by discriminate.
  exact (nothing_is_written_unless_open example_client _ m H).
Defined.

(** ** The heartbeat timer is never armed twice *)

Lemma timers_app l1 l2 : timers (l1 ++ l2) = timers l1 + timers l2.
Proof. induction l1 as [|a l1 IH]; cbn; [done|]. rewrite IH. lia. Qed.

Lemma timer_at_ret {A} (a : A) m : timer_at (ret a) m.
Proof. unfold timer_at. cbn. lia. Qed.
Lemma timer_at_throw {A} e m : timer_at (@throw A e) m.
Proof. unfold timer_at. cbn. lia. Qed.
Lemma timer_at_tell a m : timer_change a = 0 -> timer_at (tell a) m.
Proof. intros Ha. unfold timer_at. cbn. lia. Qed.

Lemma timer_at_bind {A B} (c : M A) (k : A -> M B) m :
  timer_at c m -> (forall a, timer_at (k a) (state_of (c m))) ->
  timer_at (bind c k) m.
Proof.
  unfold timer_at, bind, state_of, actions_of. intros Hc Hk.
  destruct (c m) as [[[a|e] m1] l1]; cbn in *; [|done].
  specialize (Hk a). destruct (k a m1) as [[o m2] l2]. cbn in *.
  rewrite timers_app. lia.
Qed.

Lemma timer_at_get {A} (k : WebSocketManager -> M A) m :
  timer_at (k m) m -> timer_at (bind get k) m.
Proof.
  unfold timer_at, bind, get, state_of, actions_of. intros Hk.
  by destruct (k m m) as [[o m2] l2].
Qed.

Lemma timer_at_try_catch {A} (c : M A) h m :
  timer_at c m -> (forall e, timer_at (h e) (state_of (c m))) ->
  timer_at (try_catch c h) m.
Proof.
  unfold timer_at, try_catch, state_of, actions_of. intros Hc Hh.
  destruct (c m) as [[[a|e] m1] l1]; cbn in *; [done|].
  specialize (Hh e). destruct (h e m1) as [[o m2] l2]. cbn in *.
  rewrite timers_app. lia.
Qed.

Lemma timer_at_modify f m :
  heartbeatInterval (f m) = heartbeatInterval m -> timer_at (modify f) m.
Proof. intros Hf. unfold timer_at, armed. cbn. rewrite Hf. lia. Qed.

Lemma timer_at_when b c m : timer_at c m -> timer_at (when b c) m.
Proof. destruct b; [done|]. intros _. apply timer_at_ret. Qed.

(** Stopping the timer if one is armed, as [handleClose] and [disconnect]
    do. *)
Lemma timer_at_stop m :
  timer_at
    (when (bool_decide (is_Some (heartbeatInterval m)))
       (tell ClearInterval ;; modify (set_heartbeatInterval None))%gw) m.
Proof.
  unfold timer_at, armed, when, state_of, actions_of.
  destruct (heartbeatInterval m) eqn:E; cbn; rewrite ?E; reflexivity.
Qed.

Ltac timer_with known :=
  repeat first
    [ known
    | apply timer_at_stop
    | apply timer_at_ret | apply timer_at_throw
    | apply timer_at_tell; reflexivity
    | apply timer_at_get
    | apply timer_at_bind; [|intros ?]
    | apply timer_at_try_catch; [|intros ?]
    | apply timer_at_when
    | apply timer_at_modify; cbn; first [ done | by repeat (case_match; cbn) ]
    | case_match ].

Section Timers.

Variable client : Client.

Lemma timer_at_send p m : timer_at (send p) m.
Proof. unfold send. timer_with fail. Qed.

Lemma timer_at_sendHeartbeat m : timer_at sendHeartbeat m.
Proof. unfold sendHeartbeat. timer_with ltac:(apply timer_at_send). Qed.

Lemma timer_at_reconnect m : timer_at (reconnect client) m.
Proof. unfold reconnect. timer_with fail. Qed.

(** Arming the timer, after clearing the one that is armed. *)
Lemma timer_at_startHeartbeat interval m :
  timer_at (startHeartbeat interval) m.
Proof.
  pose proof (timer_at_sendHeartbeat
                (set_heartbeatInterval (Some interval) m)) as H.
  unfold timer_at, armed, startHeartbeat, bind, get, when, tell, modify,
    ret, state_of, actions_of in *.
  destruct (sendHeartbeat _) as [[o m2] l2] eqn:E. cbn in H.
  destruct (heartbeatInterval m); cbn -[sendHeartbeat]; rewrite E; cbn; lia.
Qed.

Ltac timer :=
  timer_with
    ltac:(first [ apply timer_at_startHeartbeat | apply timer_at_sendHeartbeat
                | apply timer_at_reconnect | apply timer_at_send ]).

Lemma timer_at_handlePayload p m : timer_at (handlePayload client p) m.
Proof.
  unfold handlePayload, handleDispatch, handleReady, handleHello, identify,
    resume.
  timer.
Qed.

Lemma timer_at_step i m : timer_at (step client i) m.
Proof.
  destruct i as [p|code reason|msg| | | | | |p|gurl|code]; cbn [step].
  - unfold on_message. timer_with ltac:(apply timer_at_handlePayload).
  - unfold on_close, handleClose. timer.
  - unfold on_error. timer.
  - unfold heartbeat_tick. timer.
  - unfold identify. timer.
  - unfold connect. timer.
  - unfold connect_opened. timer.
  - unfold reconnect_failed. timer.
  - apply timer_at_send.
  - unfold connect. timer.
  - unfold disconnect. timer.
Qed.

(** X6.  In every run from the initial state, the number of heartbeat
    timers armed and not cleared is 1 when [heartbeatInterval] is set and
    0 when it is not: the manager never has two heartbeat timers, and
    never one it has lost track of. *)
Theorem heartbeat_timer_is_never_doubled inputs :
  let r := run client inputs initial in
  timers (snd r) = armed (fst r)
  /\ 0 <= timers (snd r) <= 1.
Proof.
  cbv zeta.
  assert (H : forall m, armed (fst (run client inputs m))
                        = armed m + timers (snd (run client inputs m))).
  { induction inputs as [|i rest IH]; intros m; [cbn; lia|].
    rewrite run_cons. cbn [fst snd]. rewrite timers_app, IH.
    pose proof (timer_at_step i m) as Hs. unfold timer_at in Hs. lia. }
  specialize (H initial). change (armed initial) with 0 in H.
  assert (0 <= armed (fst (run client inputs initial)) <= 1)
    by (unfold armed; destruct (heartbeatInterval _); lia).
  lia.
Qed.

End Timers.

(** ** The intent bits *)

Lemma ToInt32_range x : int32 (ToInt32 x).
Proof.
  unfold int32, ToInt32. cbv zeta.
  pose proof (Z.mod_pos_bound x (2 ^ 32) eq_refl).
  destruct (Z.ltb_spec (x mod 2 ^ 32) (2 ^ 31)); lia.
Qed.

Lemma ToInt32_id x : int32 x -> ToInt32 x = x.
Proof.
  unfold int32, ToInt32. cbv zeta. intros Hx.
  destruct (Z_lt_le_dec x 0) as [Hneg|Hpos].
  - assert (E : x mod 2 ^ 32 = x + 2 ^ 32).
    { rewrite <- (Z_mod_plus_full x 1 (2 ^ 32)).
      apply Z.mod_small. lia. }
    rewrite E. destruct (Z.ltb_spec (x + 2 ^ 32) (2 ^ 31)); lia.
  - rewrite Z.mod_small by lia.
    destruct (Z.ltb_spec x (2 ^ 31)); lia.
Qed.

Lemma int32_shiftr x : int32 x <-> Z.shiftr x 31 = 0 \/ Z.shiftr x 31 = -1.
Proof.
  unfold int32. rewrite Z.shiftr_div_pow2 by lia.
  pose proof (Z.div_mod x (2 ^ 31) ltac:(lia)).
  pose proof (Z.mod_pos_bound x (2 ^ 31) eq_refl).
  change (2 ^ 31) with 2147483648 in *. lia.
Qed.

Lemma int32_lor a b : int32 a -> int32 b -> int32 (Z.lor a b).
Proof.
  rewrite !int32_shiftr, Z.shiftr_lor.
  intros [-> | ->] [-> | ->]; cbn; auto.
Qed.

Lemma bitor_lor a b : int32 a -> bitor a b = Z.lor a (ToInt32 b).
Proof. intros Ha. unfold bitor. by rewrite (ToInt32_id a). Qed.

Lemma testbit_fold_lor (l : list Z) acc i :
  0 <= i ->
  Z.testbit (fold_left Z.lor l acc) i
  = Z.testbit acc i || existsb (fun b => Z.testbit b i) l.
Proof.
  intros Hi. revert acc.
  induction l as [|b l IH]; intros acc; cbn.
  - by rewrite orb_false_r.
  - by rewrite IH, Z.lor_spec, orb_assoc.
Qed.

Section IntentFacts.

Variable GatewayIntentBits : string -> option Z.

Lemma known_bits_cons intent names :
  known_bits GatewayIntentBits (intent :: names)
  = match GatewayIntentBits intent with
    | Some bit => ToInt32 bit :: known_bits GatewayIntentBits names
    | None => known_bits GatewayIntentBits names
    end.
Proof. unfold known_bits. cbn. by destruct (GatewayIntentBits intent). Qed.

Lemma calculateIntents_fold names acc :
  int32 acc ->
  fold_left
    (fun bits intent =>
       match GatewayIntentBits intent with
       | Some bit => if bit =? 0 then bits else bitor bits bit
       | None => bits
       end) names acc
  = fold_left Z.lor (known_bits GatewayIntentBits names) acc.
Proof.
  revert acc. induction names as [|intent names IH]; intros acc Hacc;
    [done|].
  rewrite known_bits_cons. cbn [fold_left].
  destruct (GatewayIntentBits intent) as [bit|]; [|by apply IH].
  cbn [fold_left]. destruct (Z.eqb_spec bit 0) as [->|_].
  - change (ToInt32 0) with 0. rewrite Z.lor_0_r. by apply IH.
  - rewrite bitor_lor by done.
    apply IH, int32_lor; [done|apply ToInt32_range].
Qed.

Lemma client_calculateIntents_fold names acc :
  int32 acc ->
  fold_left
    (fun bits intent =>
       match GatewayIntentBits intent with
       | Some bit => bitor bits bit
       | None => bits
       end) names acc
  = fold_left Z.lor (known_bits GatewayIntentBits names) acc.
Proof.
  revert acc. induction names as [|intent names IH]; intros acc Hacc;
    [done|].
  rewrite known_bits_cons. cbn [fold_left].
  destruct (GatewayIntentBits intent) as [bit|]; [|by apply IH].
  cbn [fold_left]. rewrite bitor_lor by done.
  apply IH, int32_lor; [done|apply ToInt32_range].
Qed.

Lemma int32_0 : int32 0.
Proof. unfold int32. lia. Qed.

Lemma int32_fold_lor (l : list Z) acc :
  int32 acc -> Forall int32 l -> int32 (fold_left Z.lor l acc).
Proof.
  intros Hacc Hl. revert acc Hacc.
  induction Hl as [|b l Hb _ IH]; intros acc Hacc; [done|].
  cbn. by apply IH, int32_lor.
Qed.

Lemma known_bits_int32 names : Forall int32 (known_bits GatewayIntentBits names).
Proof.
  apply Forall_forall. intros b Hb.
  apply list_elem_of_omap in Hb as (intent & _ & Hb).
  destruct (GatewayIntentBits intent); simplify_eq/=.
  apply ToInt32_range.
Qed.

(** X12.  The intents value is a signed 32-bit number whose bit [i] is set
    exactly when some listed name that the table knows has bit [i] set in
    its 32-bit value; names the table does not know contribute nothing. *)
Theorem intents_are_the_union_of_known_bits names :
  - 2 ^ 31 <= calculateIntents GatewayIntentBits names < 2 ^ 31
  /\ forall i : nat,
       Z.testbit (calculateIntents GatewayIntentBits names) (Z.of_nat i)
       = existsb (fun b => Z.testbit b (Z.of_nat i)) (known_bits GatewayIntentBits names).
Proof.
  unfold calculateIntents. rewrite calculateIntents_fold by apply int32_0.
  split.
  - apply int32_fold_lor; [apply int32_0|apply known_bits_int32].
  - intros i. rewrite testbit_fold_lor by lia. by rewrite Z.testbit_0_l.
Qed.

(** X13.  The client's copy of [calculateIntents], which skips only names
    missing from the table, and the manager's copy, which also skips a bit
    of 0, compute the same value. *)
Theorem both_calculateIntents_agree names :
  client_calculateIntents GatewayIntentBits names
  = calculateIntents GatewayIntentBits names.
Proof.
  unfold client_calculateIntents, calculateIntents.
  by rewrite calculateIntents_fold, client_calculateIntents_fold
    by apply int32_0.
Qed.

(** X14.  The intents value depends only on which names are listed, not on
    their order or on how often a name is repeated. *)
Theorem intents_ignore_order_and_repeats names1 names2 :
  (forall intent, intent ∈ names1 <-> intent ∈ names2) ->
  calculateIntents GatewayIntentBits names1
  = calculateIntents GatewayIntentBits names2.
Proof.
  intros Hsame. unfold calculateIntents.
  rewrite !calculateIntents_fold by apply int32_0.
  apply Z.bits_inj'. intros i Hi. rewrite !testbit_fold_lor by done.
  f_equal. apply eq_true_iff_eq. rewrite !existsb_exists.
  split; intros (b & Hb & Hbit); exists b; split; try done;
    apply list_elem_of_In; apply list_elem_of_In in Hb;
    apply list_elem_of_omap in Hb as (intent & Hin & Hb);
    apply list_elem_of_omap; exists intent; split; try done;
    by apply Hsame.
Qed.

End IntentFacts.

Lemma intents_ignore_order_and_repeats_witness :
  calculateIntents example_bits
    ["Guilds"; "GuildMessages"; "Unknown"; "Guilds"]
  = calculateIntents example_bits ["Unknown"; "GuildMessages"; "Guilds"]
  /\ calculateIntents example_bits ["Unknown"; "GuildMessages"; "Guilds"]
     = 513.
Proof.
  split; [|reflexivity].
  apply (intents_ignore_order_and_repeats example_bits).
  intros intent. rewrite !elem_of_cons, !elem_of_nil. tauto.
Defined.

End GatewayMore.

(** * More facts about the REST dispatcher *)

Module RESTMore.
Import REST.
Import RESTFacts.

(** ** The pieces of [processQueue], once more *)

Section MorePieces.

Variable options : RESTOptions.

Lemma execute_checked b r now m : checked b r m (execute b r now m).
Proof. eexists _, _. split; [done|]. by repeat constructor. Qed.

Lemma bucket_check_checked b r now m : checked b r m (bucket_check b r now m).
Proof.
  unfold bucket_check. repeat case_match; try apply execute_checked.
  eexists _, _. split; [done|constructor].
Qed.

Lemma global_check_checked b r now m : checked b r m (global_check b r now m).
Proof.
  unfold global_check. case_match; [|apply bucket_check_checked].
  eexists _, _. split; [done|constructor].
Qed.

Lemma checked_facts b r m p :
  checked b r m p -> piece_facts options b m (bounded options r) p.
Proof.
  intros (a & evs & -> & Hev). split; [done|]. split; [done|].
  intros Hf Hr. split; [done|]. by intros r' a' [= <- <-].
Qed.

(** A piece run from a manager that differs from [m] in the queue of [b]
    only. *)
Lemma piece_facts_from b m m1 (held held1 : Prop) p :
  (forall b', b' <> b -> queues m1 !! b' = queues m !! b') ->
  (fresh m -> held -> fresh m1 /\ held1) ->
  piece_facts options b m1 held1 p -> piece_facts options b m held p.
Proof.
  destruct p as [[m' evs] st]. intros Hq Hfresh (Hev & [Hf Hi] & Hr).
  split; [done|]. split.
  - split; [|done]. intros b' Hne. by rewrite Hf, Hq.
  - intros H1 H2. destruct (Hfresh H1 H2). by apply Hr.
Qed.

Lemma bounded_fresh r : retries r = 0 -> bounded options r.
Proof. unfold bounded. lia. Qed.

Lemma loop_facts b now m : piece_facts options b m True (loop b now m).
Proof.
  unfold loop. destruct (default [] (queues m !! b)) as [|r rest] eqn:E.
  - split; [constructor|]. split; [by split|]. by intros Hf _.
  - apply (piece_facts_from b m
             (set_queues (<[b:=rest]> (queues m)) m) _ (bounded options r)).
    + intros b' Hne. cbn. by rewrite lookup_insert_ne.
    + intros Hf _. destruct (queues m !! b) as [q|] eqn:Hq; [|done].
      cbn in E. subst q. pose proof (Hf b _ Hq) as Hall.
      split; [|apply bounded_fresh; exact (Forall_inv Hall)].
      intros b' q'. cbn. destruct (decide (b' = b)) as [->|Hne].
      * rewrite lookup_insert_eq. intros [= <-]. exact (Forall_inv_tail Hall).
      * rewrite lookup_insert_ne by done. apply Hf.
    + apply checked_facts, global_check_checked.
Qed.

(** The request put back at the front is the one the loop takes next. *)
Lemma loop_unshift b r now m q :
  queues m !! b = Some q ->
  loop b now (unshift b r m)
  = global_check b r now (set_queues (<[b:=q]> (queues m)) m).
Proof.
  intros Hq. unfold loop. rewrite (unshift_lookup b r m q Hq).
  cbn [default]. f_equal. unfold unshift, set_queues. cbn. f_equal.
  apply map_eq. intros b'. destruct (decide (b' = b)) as [->|Hne].
  - by rewrite !lookup_insert_eq.
  - by rewrite !lookup_insert_ne, lookup_alter_ne.
Qed.

Lemma loop_unshift_facts b r now m :
  piece_facts options b m (bounded options r) (loop b now (unshift b r m)).
Proof.
  destruct (queues m !! b) as [q|] eqn:Hq.
  - rewrite (loop_unshift b r now m q Hq).
    apply (piece_facts_from b m
             (set_queues (<[b:=q]> (queues m)) m) _ (bounded options r)).
    + intros b' Hne. cbn. by rewrite lookup_insert_ne.
    + intros Hf Hr. split; [|done]. intros b' q'. cbn.
      destruct (decide (b' = b)) as [->|Hne].
      * rewrite lookup_insert_eq. intros [= <-]. by apply (Hf b).
      * rewrite lookup_insert_ne by done. apply Hf.
    + apply checked_facts, global_check_checked.
  - unfold loop, unshift. cbn [queues set_queues].
    rewrite lookup_alter_eq, Hq. cbn.
    split; [constructor|]. split.
    + split; [|cbn; by rewrite lookup_alter_eq, Hq].
      intros b' Hne. cbn. by rewrite lookup_alter_ne.
    + intros Hf _. split; [|done]. intros b' q'. cbn.
      destruct (decide (b' = b)) as [->|Hne].
      * by rewrite lookup_alter_eq, Hq.
      * rewrite lookup_alter_ne by done. apply Hf.
Qed.

Lemma piece_facts_event b m held m' evs st e :
  worker_event e ->
  piece_facts options b m held (m', evs, st) ->
  piece_facts options b m held (m', e :: evs, st).
Proof. intros He (Hev & Hq & Hr). split; [by constructor|done]. Qed.

Lemma bounded_retry r :
  bounded options r -> retries r < rateLimitRetryLimit options ->
  bounded options (retry r).
Proof. unfold bounded. cbn. lia. Qed.

Lemma catch_facts b r status retry_after now m :
  piece_facts options b m (bounded options r)
    (catch options b r status retry_after now m).
Proof.
  unfold catch. destruct (Z.eqb_spec status 429) as [|Hne].
  { apply checked_facts. eexists _, _. split; [done|constructor]. }
  destruct (Z.ltb_spec (retries r) (rateLimitRetryLimit options)).
  - apply (piece_facts_from b m m _ (bounded options (retry r)));
      [done| |apply loop_unshift_facts].
    intros Hf Hr. split; [done|]. by apply bounded_retry.
  - pose proof (loop_facts b now m) as Hl.
    destruct (loop b now m) as [[m' evs] st].
    apply piece_facts_event; [done|].
    by apply (piece_facts_from b m m _ True).
Qed.

Lemma settled_facts b r res now m :
  piece_facts options b m (bounded options r)
    (settled options b r res now m).
Proof.
  unfold settled. destruct res as [status headers retry_after|];
    [|apply catch_facts].
  destruct (updateRateLimits_frame headers
              (getBucketId (endpoint r) (method r)) now m) as (_ & Eq & _).
  set (m1 := updateRateLimits headers _ now m) in *.
  assert (Hfr : forall held : Prop, fresh m -> held -> fresh m1 /\ held).
  { intros held Hf Hr. split; [|done]. intros b' q'. rewrite Eq. apply Hf. }
  destruct (ok status).
  - pose proof (loop_facts b now m1) as Hl.
    destruct (loop b now m1) as [[m' evs] st].
    apply piece_facts_event; [done|].
    apply (piece_facts_from b m m1 _ True); [by rewrite Eq| |done].
    intros Hf Hr. split; [|done]. by apply (Hfr True).
  - apply (piece_facts_from b m m1 _ (bounded options r));
      [by rewrite Eq|apply Hfr|apply catch_facts].
Qed.

Lemma woken_facts b r a now m p :
  woken b r a now m = Some p ->
  piece_facts options b m (bounded options r) p.
Proof.
  destruct a; cbn; intros [= <-].
  - apply checked_facts, bucket_check_checked.
  - apply checked_facts, execute_checked.
  - apply loop_unshift_facts.
Qed.

End MorePieces.

(** ** The turns of the event loop, once more *)

Lemma worker_events_enqueued evs :
  Forall worker_event evs -> evs ≫= enqueued = [].
Proof.
  induction 1 as [|e evs He _ IH]; [done|].
  rewrite bind_cons, IH. by destruct e.
Qed.

Lemma push_fresh b r m : fresh m -> retries r = 0 -> fresh (push b r m).
Proof.
  intros Hf Hr b' q'. destruct (decide (b' = b)) as [->|Hne].
  - rewrite push_lookup. intros [= <-]. apply Forall_app. split.
    + destruct (queues m !! b) as [q|] eqn:Hq; [by apply (Hf b)|constructor].
    + by repeat constructor.
  - destruct (push_frame b r m b' Hne) as [-> _]. apply Hf.
Qed.

Section MoreWorlds.

Variable options : RESTOptions.

(** [request()] either finds the bucket being processed and leaves the
    request in its queue, or starts an invocation of [processQueue]. *)
Lemma queueRequest_cases e mth w :
  let b := getBucketId e mth in
  let r := {| id := next_id w; endpoint := e; method := mth;
              retries := 0 |} in
  let m := push b r (manager w) in
  (b ∈ processing (manager w)
   /\ queueRequest e mth w
      = {| manager := m; tasks := tasks w; now := now w;
           next_id := S (next_id w);
           history := history w ++ [Enqueued b (next_id w)] |})
  \/ ((b ∉ processing (manager w))
      /\ exists m' evs st,
           loop b (now w) (set_processing ({[b]} ∪ processing m) m)
           = (m', evs, st)
           /\ queueRequest e mth w
              = {| manager := m';
                   tasks := tasks w
                            ++ [{| task_bucket := b; task_state := st |}];
                   now := now w; next_id := S (next_id w);
                   history := history w ++ Enqueued b (next_id w) :: evs |}).
Proof.
  intros b r m. unfold queueRequest, processQueue. fold b r m.
  change (processing m) with (processing (manager w)).
  destruct (bool_decide (b ∈ processing (manager w))) eqn:Hin.
  - left. apply bool_decide_eq_true_1 in Hin. by split.
  - right. apply bool_decide_eq_false_1 in Hin. split; [done|].
    pose proof (push_lookup b r (manager w)) as Hq. fold m in Hq.
    rewrite Hq.
    destruct (default [] (queues (manager w) !! b) ++ [r]) eqn:E.
    { by apply app_nil in E as [_ [=]]. }
    destruct (loop b (now w) _) as [[m' evs] st]. by eexists _, _, _.
Qed.

(** What a turn adds to the history: the request taken, if one was, and
    then events of a worker. *)
Lemma step_history i w w' :
  step options i w = Some w' ->
  exists evs,
    Forall worker_event evs
    /\ ((next_id w' = next_id w /\ history w' = history w ++ evs)
        \/ (next_id w' = S (next_id w)
            /\ exists b,
                 history w' = history w ++ Enqueued b (next_id w) :: evs)).
Proof.
  destruct i as [e mth|dt|i|i res]; cbn [step].
  - intros [= <-].
    destruct (queueRequest_cases e mth w)
      as [[_ ->]|(_ & m' & evs & st & El & ->)].
    + exists []. split; [constructor|]. right. split; [done|]. by eexists.
    + exists evs. split.
      * pose proof (loop_facts options (getBucketId e mth) (now w)
                      (set_processing
                         ({[getBucketId e mth]}
                          ∪ processing
                              (push (getBucketId e mth)
                                 {| id := next_id w; endpoint := e;
                                    method := mth; retries := 0 |}
                                 (manager w)))
                         (push (getBucketId e mth)
                            {| id := next_id w; endpoint := e;
                               method := mth; retries := 0 |}
                            (manager w)))) as Hl.
        rewrite El in Hl. by destruct Hl.
      * right. split; [done|]. by eexists.
  - destruct (0 <=? dt); [|done]. intros [= <-]. exists [].
    split; [constructor|]. left. cbn. by rewrite app_nil_r.
  - destruct (tasks w !! i) as [[b [[r a]|]]|] eqn:Hi; try done.
    destruct (until a) as [u|]; [|done].
    destruct (u <=? now w); [|done].
    destruct (woken b r a (now w) (manager w)) as [p|] eqn:Hw; [|done].
    cbn. intros [= <-].
    destruct (woken_facts options b r a _ _ p Hw) as [Hev _].
    destruct p as [[m' evs] st]. exists evs. split; [done|]. by left.
  - destruct (tasks w !! i) as [[b [[r a]|]]|] eqn:Hi; try done.
    destruct a; try done. intros [= <-].
    destruct (settled_facts options b r res (now w) (manager w)) as [Hev _].
    destruct (settled options b r res (now w) (manager w)) as [[m' evs] st].
    exists evs. split; [done|]. by left.
Qed.

Lemma run_invariant (P : World -> Prop) :
  P start ->
  (forall i w w', Inv w -> P w -> step options i w = Some w' -> P w') ->
  forall inputs w, run options inputs start = Some w -> P w.
Proof.
  intros H0 Hstep inputs.
  assert (G : forall w0 w,
            Inv w0 -> P w0 -> run options inputs w0 = Some w -> P w).
  { induction inputs as [|i rest IH]; intros w0 w HI HP; cbn [run].
    - by intros [= <-].
    - destruct (step options i w0) as [w1|] eqn:E; [|done]. cbn.
      apply IH; [by eapply step_Inv|by eapply Hstep]. }
  intros w. apply G; [apply Inv_start|done].
Qed.

(** The identifiers of the requests taken are 0, 1, 2, ... in this order. *)
Lemma run_enqueued inputs w :
  run options inputs start = Some w ->
  history w ≫= enqueued = seq 0 (next_id w).
Proof.
  revert inputs w. apply run_invariant; [done|].
  intros i w w' _ IH Hstep.
  destruct (step_history i w w' Hstep) as (evs & Hev & [[-> ->]|[-> [b ->]]]);
    rewrite bind_app.
  - by rewrite (worker_events_enqueued evs Hev), app_nil_r.
  - rewrite bind_cons, (worker_events_enqueued evs Hev), IH, seq_S.
    by rewrite app_nil_r.
Qed.

Lemma resumed_retries i b r a p w :
  retries_inv options w ->
  tasks w !! i = Some {| task_bucket := b; task_state := Some (r, a) |} ->
  piece_facts options b (manager w) (bounded options r) p ->
  retries_inv options (resumed i b p w).
Proof.
  intros [Hf Ht] Hi (_ & _ & Hr). destruct p as [[m' evs] st].
  destruct (Hr Hf (Ht _ _ _ _ Hi)) as [Hf' Hst].
  split; [done|]. cbn. intros j b' r' a' Hj.
  apply list_lookup_insert_Some in Hj as [(_ & [= _ ->] & _)|[_ Hj]].
  - by eapply Hst.
  - by eapply Ht.
Qed.

Lemma step_retries i w w' :
  retries_inv options w -> step options i w = Some w' ->
  retries_inv options w'.
Proof.
  intros HR. destruct i as [e mth|dt|i|i res]; cbn [step].
  - intros [= <-]. destruct HR as [Hf Ht].
    assert (Hp : fresh (push (getBucketId e mth)
                          {| id := next_id w; endpoint := e; method := mth;
                             retries := 0 |} (manager w)))
      by (by apply push_fresh).
    destruct (queueRequest_cases e mth w)
      as [[_ ->]|(_ & m' & evs & st & El & ->)]; [by split|].
    pose proof (loop_facts options (getBucketId e mth) (now w)
                  (set_processing
                     ({[getBucketId e mth]}
                      ∪ processing
                          (push (getBucketId e mth)
                             {| id := next_id w; endpoint := e;
                                method := mth; retries := 0 |}
                             (manager w)))
                     (push (getBucketId e mth)
                        {| id := next_id w; endpoint := e;
                           method := mth; retries := 0 |}
                        (manager w)))) as (_ & _ & Hl).
    rewrite El in Hl. destruct (Hl Hp I) as [Hf' Hst].
    split; [done|]. cbn. intros j b' r' a' Hj.
    apply lookup_snoc_Some in Hj as [[_ Hj]|[_ [= _ ->]]].
    + by eapply Ht.
    + by eapply Hst.
  - destruct (0 <=? dt); [|done]. by intros [= <-].
  - destruct (tasks w !! i) as [[b [[r a]|]]|] eqn:Hi; try done.
    destruct (until a) as [u|]; [|done].
    destruct (u <=? now w); [|done].
    destruct (woken b r a (now w) (manager w)) as [p|] eqn:Hw; [|done].
    cbn. intros [= <-]. apply (resumed_retries i b r a); [done..|].
    by eapply woken_facts.
  - destruct (tasks w !! i) as [[b [[r a]|]]|] eqn:Hi; try done.
    destruct a; try done. intros [= <-].
    apply (resumed_retries i b r Execute); [done..|].
    apply settled_facts.
Qed.

Lemma resumed_idle i b r a p w :
  idle_inv w ->
  tasks w !! i = Some {| task_bucket := b; task_state := Some (r, a) |} ->
  piece_facts options b (manager w) (bounded options r) p ->
  idle_inv (resumed i b p w).
Proof.
  intros HQ Hi (_ & Hq & _). destruct p as [[m' evs] st].
  destruct Hq as [Hfr Hnone]. intros b'. cbn [resumed tasks manager].
  destruct (decide (b' = b)) as [->|Hne].
  - rewrite (workers_insert _ _ _ _ _ Hi), live_in_own. intros Hw.
    apply app_eq_nil in Hw as [_ Hw]. apply app_eq_nil in Hw as [Hw _].
    apply Hnone. by destruct st.
  - rewrite (workers_insert_ne _ _ _ _ _ _ Hi Hne), (Hfr b' Hne).
    apply HQ.
Qed.

Lemma step_idle i w w' :
  Inv w -> idle_inv w -> step options i w = Some w' -> idle_inv w'.
Proof.
  intros HI HQ. destruct i as [e mth|dt|i|i res]; cbn [step].
  - intros [= <-]. set (b := getBucketId e mth).
    set (r := {| id := next_id w; endpoint := e; method := mth;
                 retries := 0 |}).
    pose proof (push_frame b r (manager w)) as Hpf.
    pose proof (queueRequest_cases e mth w) as Hc. cbv zeta in Hc.
    fold b r in Hc.
    destruct Hc as [[Hin ->]|(_ & m' & evs & st & El & ->)];
      intros b'; cbn [tasks manager].
    + destruct (decide (b' = b)) as [->|Hne].
      * intros Hw. destruct HI as [Hb _].
        destruct (Hb b) as (_ & Hproc & _). by apply Hproc in Hin.
      * destruct (Hpf b' Hne) as [-> _]. apply HQ.
    + pose proof (loop_facts options b (now w)
                    (set_processing ({[b]} ∪ processing (push b r (manager w)))
                       (push b r (manager w)))) as (_ & Hq & _).
      rewrite El in Hq. destruct Hq as [Hfr Hnone].
      rewrite workers_app, workers_singleton.
      destruct (decide (b' = b)) as [->|Hne].
      * rewrite live_in_own. intros Hw. apply app_eq_nil in Hw as [_ Hw].
        apply Hnone. by destruct st.
      * rewrite live_in_other, app_nil_r by done. rewrite (Hfr b' Hne).
        cbn [queues set_processing].
        destruct (Hpf b' Hne) as [-> _]. apply HQ.
  - destruct (0 <=? dt); [|done]. by intros [= <-].
  - destruct (tasks w !! i) as [[b [[r a]|]]|] eqn:Hi; try done.
    destruct (until a) as [u|]; [|done].
    destruct (u <=? now w); [|done].
    destruct (woken b r a (now w) (manager w)) as [p|] eqn:Hw; [|done].
    cbn. intros [= <-]. apply (resumed_idle i b r a); [done..|].
    by eapply woken_facts.
  - destruct (tasks w !! i) as [[b [[r a]|]]|] eqn:Hi; try done.
    destruct a; try done. intros [= <-].
    apply (resumed_idle i b r Execute); [done..|].
    apply settled_facts.
Qed.

End MoreWorlds.

(** ** A bucket that is not being processed *)

(** X15.  In every world the dispatcher reaches, a bucket that is not
    marked in [processing] has no invocation of [processQueue] alive, an
    empty queue, and every request that was submitted to it resolved or
    rejected: no request is left waiting without a worker. *)
Theorem idle_bucket_has_nothing_pending options inputs w b :
  run options inputs start = Some w ->
  b ∉ processing (manager w) ->
  workers b (tasks w) = []
  /\ default [] (queues (manager w) !! b) = []
  /\ submissions b (history w) = completions b (history w).
Proof.
  intros Hrun Hidle.
  pose proof (run_Inv options inputs start w Inv_start Hrun) as [Hb _].
  destruct (Hb b) as (_ & Hproc & _ & _ & Hfifo & _).
  assert (Hw : workers b (tasks w) = []).
  { destruct (workers b (tasks w)); [done|].
    exfalso. apply Hidle, Hproc. done. }
  assert (HQ : idle_inv w).
  { revert Hrun. apply run_invariant.
    - intros b' _. cbn. by rewrite lookup_empty.
    - apply step_idle. }
  split; [done|]. split; [by apply HQ|].
  rewrite Hfifo, Hw, (HQ b Hw). cbn. by rewrite app_nil_r.
Qed.

(** Two requests to a route, the first rejected after four answers 500 and
    the second resolved: the bucket is idle again, with both completed. *)
Lemma idle_bucket_has_nothing_pending_witness :
  let w := default start (run default_options rejected_then_resolved start) in
  run default_options rejected_then_resolved start = Some w
  /\ ("GET:/channels/1" ∉ processing (manager w))
  /\ workers "GET:/channels/1" (tasks w) = []
  /\ default [] (queues (manager w) !! "GET:/channels/1") = []
  /\ submissions "GET:/channels/1" (history w) = [0; 1]%nat
  /\ completions "GET:/channels/1" (history w) = [0; 1]%nat.
Proof.
  intros w.
  assert (H : run default_options rejected_then_resolved start = Some w)
    by (by vm_compute).
  assert (Hidle : "GET:/channels/1" ∉ processing (manager w)).
  { apply (bool_decide_eq_false_1
             ("GET:/channels/1" ∈ processing (manager w))).
    by vm_compute. }
  destruct (idle_bucket_has_nothing_pending default_options
              rejected_then_resolved w "GET:/channels/1" H Hidle)
    as (Hw & Hq & Hs).
  split; [exact H|]. split; [exact Hidle|]. split; [exact Hw|].
  split; [exact Hq|]. split; by vm_compute.
Defined.

(** ** The retry counter *)

(** X16.  In every world the dispatcher reaches, the request a worker
    holds has a retry counter between 0 and [rateLimitRetryLimit] (0 when
    the limit is negative), and every request that waits in a queue has a
    counter of 0: a request that is put back at the front of its queue is
    taken again in the same turn. *)
Theorem retry_counter_stays_within_limit options inputs w :
  run options inputs start = Some w ->
  (forall i b r a,
     tasks w !! i = Some {| task_bucket := b; task_state := Some (r, a) |} ->
     0 <= retries r <= Z.max 0 (rateLimitRetryLimit options))
  /\ (forall b q r,
        queues (manager w) !! b = Some q -> r ∈ q -> retries r = 0).
Proof.
  intros Hrun.
  assert (HR : retries_inv options w).
  { revert Hrun. apply run_invariant.
    - split; [|done]. intros b q. cbn. by rewrite lookup_empty.
    - intros i w0 w1 _. apply step_retries. }
  destruct HR as [Hf Ht]. split; [exact Ht|].
  intros b q r Hq Hr. pose proof (Hf b q Hq) as Hall.
  rewrite Forall_forall in Hall. by apply Hall.
Qed.

(** After three answers 500 the first request is held with its counter at
    3, the limit, and the second waits with a counter of 0. *)
Lemma retry_counter_stays_within_limit_witness :
  let w := default start
             (run default_options (take 5 rejected_then_resolved) start) in
  run default_options (take 5 rejected_then_resolved) start = Some w
  /\ (retries <$> (fst <$> workers "GET:/channels/1" (tasks w))) = [3]
  /\ (forall i b r a,
        tasks w !! i = Some {| task_bucket := b; task_state := Some (r, a) |} ->
        0 <= retries r <= 3)
  /\ (forall b q r,
        queues (manager w) !! b = Some q -> r ∈ q -> retries r = 0).
Proof.
  intros w.
  assert (H : run default_options (take 5 rejected_then_resolved) start
              = Some w) by (by vm_compute).
  split; [exact H|]. split; [by vm_compute|].
  exact (retry_counter_stays_within_limit default_options _ w H).
Defined.

(** ** Every request is completed at most once *)

Lemma submissions_sublist b h : submissions b h `sublist_of` h ≫= enqueued.
Proof.
  induction h as [|e h IH]; [done|].
  unfold submissions in *. rewrite !bind_cons. apply sublist_app; [|done].
  destruct e; cbn; try apply sublist_nil_l. case_decide; [done|].
  apply sublist_nil_l.
Qed.

Lemma submission_elem b e i : i ∈ submission b e -> e = Enqueued b i.
Proof.
  destruct e; cbn; try (by intros Hin; apply elem_of_nil in Hin).
  case_decide; [|by intros Hin; apply elem_of_nil in Hin].
  intros Hin. apply list_elem_of_singleton in Hin. by subst.
Qed.

Lemma submissions_one_bucket h b b' i :
  NoDup (h ≫= enqueued) ->
  i ∈ submissions b h -> i ∈ submissions b' h -> b = b'.
Proof.
  induction h as [|e h IH]; [by intros _ Hin; apply elem_of_nil in Hin|].
  unfold submissions in *. rewrite !bind_cons.
  intros Hnd. apply NoDup_app in Hnd as (_ & Hsep & Hnd).
  assert (Hsub : forall b0, i ∈ h ≫= submission b0 -> i ∈ h ≫= enqueued).
  { intros b0 Hin. eapply elem_of_sublist; [exact Hin|].
    apply submissions_sublist. }
  rewrite !elem_of_app. intros [H1|H1] [H2|H2].
  - apply submission_elem in H1, H2. congruence.
  - exfalso. apply (Hsep i); [|by eapply Hsub].
    apply submission_elem in H1 as ->. apply list_elem_of_here.
  - exfalso. apply (Hsep i); [|by eapply Hsub].
    apply submission_elem in H2 as ->. apply list_elem_of_here.
  - by apply IH.
Qed.

Lemma completed_in_bucket h i :
  i ∈ h ≫= completed -> exists b, i ∈ completions b h.
Proof.
  intros Hin. apply list_elem_of_bind in Hin as (e & Hi & He).
  destruct e as [| |b j|b j status]; cbn in Hi;
    try (by apply elem_of_nil in Hi);
    apply list_elem_of_singleton in Hi as ->; exists b;
    apply list_elem_of_bind; eexists; (split; [|exact He]);
    cbn; rewrite decide_True by done; apply list_elem_of_here.
Qed.

(** Completions that do not repeat within a bucket, and never show up in
    two buckets, do not repeat at all. *)
Lemma completed_NoDup h :
  (forall b, NoDup (completions b h)) ->
  (forall b b' i, i ∈ completions b h -> i ∈ completions b' h -> b = b') ->
  NoDup (h ≫= completed).
Proof.
  induction h as [|e h IH]; [constructor|].
  intros Hnd Hone. rewrite bind_cons.
  assert (Htail : NoDup (h ≫= completed)).
  { apply IH.
    - intros b. specialize (Hnd b). unfold completions in Hnd.
      rewrite bind_cons in Hnd. by apply NoDup_app in Hnd as (_ & _ & Hnd).
    - intros b b' i H1 H2. apply (Hone b b' i);
        unfold completions; rewrite bind_cons; apply elem_of_app; by right. }
  assert (Hhead : forall b i, completion b e = [i] -> completed e = [i] ->
            NoDup ([i] ++ h ≫= completed)).
  { intros b i Eb Ec. apply NoDup_cons. split; [|done]. intros Hin.
    apply completed_in_bucket in Hin as [b' Hin].
    assert (Hb : i ∈ completions b (e :: h)).
    { unfold completions. rewrite bind_cons, Eb. apply list_elem_of_here. }
    assert (Hb' : i ∈ completions b' (e :: h)).
    { unfold completions. rewrite bind_cons. apply elem_of_app. by right. }
    pose proof (Hone b b' i Hb Hb') as <-.
    specialize (Hnd b). unfold completions in Hnd.
    rewrite bind_cons, Eb in Hnd. by apply NoDup_cons in Hnd as [Hnd _]. }
  destruct e as [| |b j|b j status]; cbn [completed]; try done.
  - apply (Hhead b j); [|done]. cbn. by rewrite decide_True.
  - apply (Hhead b j); [|done]. cbn. by rewrite decide_True.
Qed.

(** X17.  In every world the dispatcher reaches, no request has been
    resolved or rejected twice, across all buckets, and every request that
    was resolved or rejected is one that [request()] had taken. *)
Theorem request_is_completed_at_most_once options inputs w :
  run options inputs start = Some w ->
  NoDup (history w ≫= completed)
  /\ forall i, i ∈ history w ≫= completed -> (i < next_id w)%nat.
Proof.
  intros Hrun.
  pose proof (run_Inv options inputs start w Inv_start Hrun) as [Hb _].
  pose proof (run_enqueued options inputs w Hrun) as Hids.
  assert (Hnd : NoDup (history w ≫= enqueued))
    by (rewrite Hids; apply NoDup_seq).
  assert (Hfifo : forall b,
            exists rest,
              submissions b (history w) = completions b (history w) ++ rest).
  { intros b. destruct (Hb b) as (_ & _ & _ & _ & -> & _). by eexists. }
  assert (Hsub : forall b i,
            i ∈ completions b (history w) -> i ∈ submissions b (history w)).
  { intros b i Hin. destruct (Hfifo b) as [rest ->].
    apply elem_of_app. by left. }
  split.
  - apply completed_NoDup.
    + intros b. destruct (Hfifo b) as [rest E].
      pose proof (sublist_NoDup _ _ Hnd (submissions_sublist b (history w)))
        as Hs.
      rewrite E in Hs. by apply NoDup_app in Hs as [Hs _].
    + intros b b' i H1 H2.
      apply (submissions_one_bucket (history w) b b' i Hnd); by apply Hsub.
  - intros i Hin. apply completed_in_bucket in Hin as [b Hin].
    apply Hsub in Hin.
    pose proof (elem_of_sublist _ _ i Hin (submissions_sublist b (history w)))
      as Hin'.
    rewrite Hids in Hin'. apply elem_of_seq in Hin'. lia.
Qed.

Lemma request_is_completed_at_most_once_witness :
  let w := default start (run default_options rejected_then_resolved start) in
  run default_options rejected_then_resolved start = Some w
  /\ history w ≫= completed = [0; 1]%nat
  /\ NoDup (history w ≫= completed)
  /\ forall i, i ∈ history w ≫= completed -> (i < 2)%nat.
Proof.
  intros w.
  assert (H : run default_options rejected_then_resolved start = Some w)
    by (by vm_compute).
  split; [exact H|]. split; [by vm_compute|].
  exact (request_is_completed_at_most_once default_options _ w H).
Defined.



(** ** Bucket identifiers and URLs *)

Lemma before_query_append endpoint query :
  before_query (String.append endpoint (String "?" query))
  = before_query endpoint.
Proof.
  induction endpoint as [|c endpoint IH]; [done|].
  change (String.append (String c endpoint) (String "?" query))
    with (String c (String.append endpoint (String "?" query))).
  cbn [before_query]. destruct (Ascii.eqb c "?"); [done|]. by rewrite IH.
Qed.

(** X19.  The bucket of a request does not depend on what follows the first
    question mark of its endpoint: requests that differ in their query
    string only are queued together. *)
Theorem bucket_ignores_the_query_string endpoint query method :
  getBucketId (String.append endpoint (String "?" query)) method
  = getBucketId endpoint method.
Proof. unfold getBucketId. by rewrite before_query_append. Qed.

(** X20.  Requests with different methods, or with different paths, are
    in different buckets: the bucket identifier determines the method and
    the endpoint up to its query string. *)
Theorem bucket_determines_method_and_path endpoint1 method1 endpoint2
    method2 :
  no_colon method1 = true -> no_colon method2 = true ->
  getBucketId endpoint1 method1 = getBucketId endpoint2 method2 ->
  method1 = method2 /\ before_query endpoint1 = before_query endpoint2.
Proof.
  unfold getBucketId. revert method2.
  induction method1 as [|c method1 IH]; intros [|c2 method2]; cbn.
  - intros _ _ [= E]. by split.
  - intros _ Hc [= <- _]. done.
  - intros Hc _ [= -> _]. done.
  - intros H1 H2 [= <- E].
    apply andb_true_iff in H1 as [_ H1], H2 as [_ H2].
    destruct (IH method2 H1 H2 E) as [-> ->]. by split.
Qed.

Lemma bucket_determines_method_and_path_witness :
  getBucketId "/channels/1?limit=5" "GET" = getBucketId "/channels/1" "GET"
  /\ "GET" = "GET"
  /\ before_query "/channels/1?limit=5" = before_query "/channels/1".
Proof.
  split; [reflexivity|].
  by apply (bucket_determines_method_and_path "/channels/1?limit=5" "GET"
              "/channels/1" "GET").
Defined.

Lemma string_cons_ne c (str : string) : String c str <> str.
Proof.
  intros E. apply (f_equal String.length) in E. cbn in E. lia.
Qed.

(** X21.  An endpoint written without its leading slash is sent to the
    same URL as the endpoint written with it, but is queued in a bucket of
    its own: [buildURL] adds the slash, [getBucketId] does not. *)
Theorem one_url_in_two_buckets endpoint method versioned :
  startsWith_slash endpoint = false ->
  buildURL (String "/" endpoint) versioned = buildURL endpoint versioned
  /\ getBucketId (String "/" endpoint) method <> getBucketId endpoint method.
Proof.
  intros Hs. split.
  - unfold buildURL. by rewrite Hs.
  - unfold getBucketId. intros E.
    apply String.app_inj in E. apply String.app_inj in E.
    cbn in E. by apply string_cons_ne in E.
Qed.

(** The two spellings of one route are sent side by side. *)
Lemma one_url_in_two_buckets_witness :
  let w := default start (run default_options same_url_twice start) in
  buildURL "/users/@me" true = "https://discord.com/api/v10/users/@me"
  /\ buildURL "users/@me" true = "https://discord.com/api/v10/users/@me"
  /\ getBucketId "/users/@me" "GET" <> getBucketId "users/@me" "GET"
  /\ run default_options same_url_twice start = Some w
  /\ (id <$> (in_flight "GET:users/@me" (tasks w)
              ++ in_flight "GET:/users/@me" (tasks w))) = [0; 1]%nat.
Proof.
  intros w.
  destruct (one_url_in_two_buckets "users/@me" "GET" true eq_refl)
    as [Hurl Hne].
  split; [reflexivity|]. split; [by rewrite <- Hurl|].
  split; [exact Hne|]. split; by vm_compute.
Defined.

(** ** A request that fails on the network *)

Section Failing.

Variable options : RESTOptions.
Variables endpoint method : string.

Lemma run_after inputs1 inputs2 w :
  run options (inputs1 ++ inputs2) w
  = run options inputs1 w ≫= run options inputs2.
Proof.
  revert w. induction inputs1 as [|i inputs1 IH]; intros w; [done|].
  cbn. destruct (step options i w); [apply IH|done].
Qed.

(** With nothing to wait for, the checks let the request through. *)
Lemma global_check_free b r now m :
  globalRemaining m = 1 -> buckets m !! b = None ->
  global_check b r now m = (m, [Sent b (id r) now None], Some (r, Execute)).
Proof.
  intros Hg Hb. unfold global_check, bucket_check, execute.
  by rewrite Hg, Hb.
Qed.

Lemma failing_first :
  failing_state endpoint method 0 (queueRequest endpoint method start).
Proof.
  destruct (queueRequest_cases endpoint method start)
    as [[Hin _]|(_ & m' & evs & st & El & ->)].
  { by apply elem_of_empty in Hin. }
  revert El. unfold loop. cbn [queues set_processing].
  rewrite push_lookup.
  change (queues (manager start))
    with (∅ : gmap string (list QueuedRequest)).
  rewrite lookup_empty. cbn [default app next_id start manager Datatypes.id].
  rewrite global_check_free; [|done|cbn; by rewrite lookup_empty].
  intros [= <- <- <-]. unfold failing_state. cbn.
  split; [done|]. split; [done|]. split; [done|].
  split; [by rewrite lookup_insert_eq|]. by rewrite lookup_empty.
Qed.

Lemma failing_retry k w :
  failing_state endpoint method k w ->
  Z.of_nat k < rateLimitRetryLimit options ->
  exists w',
    step options (Settled 0 NetworkError) w = Some w'
    /\ failing_state endpoint method (S k) w'.
Proof.
  intros (Ht & Hn & Hh & Hq & Hb & Hg) Hlt.
  eexists. split; [cbn [step]; rewrite Ht; reflexivity|].
  unfold settled, catch. cbn [retries].
  destruct (Z.ltb_spec (Z.of_nat k) (rateLimitRetryLimit options)); [|lia].
  cbn [Z.eqb]. rewrite (loop_unshift _ _ _ _ _ Hq).
  rewrite global_check_free; [|done|done].
  unfold failing_state, resumed. cbn. rewrite Ht, Hn, Hh. cbn.
  split; [unfold retry; cbn; do 5 f_equal; lia|]. split; [done|].
  split; [by rewrite <- replicate_cons_app|].
  split; [by rewrite lookup_insert_eq|]. done.
Qed.

Lemma failing_last k w :
  failing_state endpoint method k w ->
  ~ Z.of_nat k < rateLimitRetryLimit options ->
  exists w',
    step options (Settled 0 NetworkError) w = Some w'
    /\ history w'
       = history w ++ [Rejected (getBucketId endpoint method) 0 0]
    /\ tasks w'
       = [ {| task_bucket := getBucketId endpoint method;
              task_state := None |} ]
    /\ (getBucketId endpoint method ∉ processing (manager w')).
Proof.
  intros (Ht & Hn & Hh & Hq & Hb & Hg) Hge.
  eexists. split; [cbn [step]; rewrite Ht; reflexivity|].
  unfold settled, catch. cbn [retries].
  destruct (Z.ltb_spec (Z.of_nat k) (rateLimitRetryLimit options)); [lia|].
  cbn [Z.eqb]. unfold loop. rewrite Hq. cbn. rewrite Ht.
  split; [done|]. split; [done|].
  rewrite elem_of_difference, elem_of_singleton. tauto.
Qed.

Lemma failing_run j k w :
  failing_state endpoint method j w ->
  (j + k <= Z.to_nat (rateLimitRetryLimit options))%nat ->
  exists w',
    run options (replicate k (Settled 0 NetworkError)) w = Some w'
    /\ failing_state endpoint method (j + k) w'.
Proof.
  revert j w. induction k as [|k IH]; intros j w Hw Hle.
  - exists w. split; [done|]. by rewrite Nat.add_0_r.
  - destruct (failing_retry j w Hw) as (w1 & Hs & Hw1); [lia|].
    destruct (IH (S j) w1 Hw1) as (w' & Hr & Hw'); [lia|].
    exists w'. split; [rewrite replicate_S; cbn [run]; by rewrite Hs|].
    by rewrite <- Nat.add_succ_comm.
Qed.

(** X22.  On a dispatcher that has seen no other request, a request whose
    every attempt fails on the network is sent [rateLimitRetryLimit] + 1
    times (once when the limit is negative), one attempt right after the
    other, and is then rejected with status 0; its bucket is left idle. *)
Theorem network_failure_is_retried_to_the_limit :
  let attempts := S (Z.to_nat (rateLimitRetryLimit options)) in
  let b := getBucketId endpoint method in
  exists w,
    run options (failing endpoint method attempts) start = Some w
    /\ history w
       = Enqueued b 0 :: replicate attempts (Sent b 0 0 None)
         ++ [Rejected b 0 0]
    /\ workers b (tasks w) = []
    /\ (b ∉ processing (manager w)).
Proof.
  cbv zeta. set (n := Z.to_nat (rateLimitRetryLimit options)).
  destruct (failing_run 0 n _ failing_first) as (w1 & Hr1 & Hw1); [done|].
  destruct (failing_last n w1 Hw1) as (w2 & Hs & Hh & Ht & Hp);
    [unfold n; lia|].
  exists w2. split.
  - unfold failing. rewrite replicate_S_end. cbn [run step].
    change (Some (queueRequest endpoint method start) ≫= ?f)
      with (f (queueRequest endpoint method start)).
    rewrite run_after, Hr1. cbn [run mbind option_bind]. by rewrite Hs.
  - destruct Hw1 as (_ & _ & Hh1 & _). rewrite Hh, Hh1, Ht.
    split; [done|]. split; [|done].
    unfold workers. cbn. unfold live_in. cbn. by case_decide.
Qed.

End Failing.

(** ** The global limit *)



End RESTMore.
